(** * F4PGA: the staleness cache and the module invocation context

    A shallow embedding of [f4pga/cache.py] (class [SymbiCache]) and of
    [f4pga/module.py] (classes [Module] and [ModuleContext]), with the
    properties of the specification stated over it; then of the module
    inspector, of the placement constraints, of [extract_bhash] and of the
    body of [f4pga/utils/__init__.py], with properties read off the code.

    Python dictionaries are finite maps ([gmap]); Python exceptions are the
    values of [exn]; a method of a stateful object is a function from the
    state of the object to its new state and an [outcome]. *)

From Stdlib Require Import ZArith Strings.String Strings.Ascii Strings.Byte.
From stdpp Require Import gmap strings list fin_maps pretty.

Local Open Scope string_scope.
Local Open Scope Z_scope.

(** ** Python exceptions and outcomes *)

(** The exceptions the two modules can raise; [Fatal] is the abort that
    [f4pga.common.fatal] stands for. *)
Inductive exn :=
  | NameError (name : string)
  | AttributeError (type_name attr : string)
  | FileNotFoundError (path : string)
  | IsADirectoryError (path : string)
  | PermissionError (path : string)
  | UnicodeDecodeError
  | Fatal (code : Z) (message : string).

(** What a call does: it returns a value or raises. *)
Inductive outcome (A : Type) :=
  | Returned (a : A)
  | Raised (e : exn).
Arguments Returned {A} a.
Arguments Raised {A} e.

(** ** The persistent cache, [f4pga/cache.py] *)

Module Cache.

(** A stored fingerprint: [update] stores the integer [0] for a directory
    and the string [str(zlib_adler32(..))] for anything else. *)
Inductive fingerprint :=
  | FInt (z : Z)
  | FStr (s : string).

#[global] Instance fingerprint_eq_dec : EqDecision fingerprint.
Proof. solve_decision. Defined.

(** [dict[str, dict[str, A]]]: path, then consumer. *)
Abbreviation table A := (gmap string (gmap string A)).

(** The value held by [self.hashes].  [load] assigns whatever [json_load]
    returns: a table, or a Python [str].  The only [str] this program ever
    writes to the cache file is [str(self.hashes)], the text of a table; it
    is kept as [HRepr t], "the string [str(t)]", since no operation reads its
    characters. *)
Inductive hashes_val :=
  | HTable (t : table fingerprint)
  | HRepr (t : table fingerprint).

(** Python's [str(x)] on such a value: the text of a dict, or the string
    itself. *)
Definition py_str (h : hashes_val) : hashes_val :=
  match h with
  | HTable t => HRepr t
  | HRepr t => HRepr t
  end.

Record SymbiCache := mkCache {
  hashes : hashes_val;
  status : table string;
  cachefile_path : string
}.

(** *** Truthiness, as Python's [if x] and [x and y] test it *)

Definition truthy_dict {A} (d : gmap string A) : bool := negb (size d =? 0)%nat.
Definition truthy_str (s : string) : bool := negb (String.eqb s "").
Definition truthy_fp (h : fingerprint) : bool :=
  match h with
  | FInt z => negb (z =? 0)
  | FStr s => truthy_str s
  end.

(** *** The file system as [pathlib.Path] sees it *)

(** What is found at a path.  [link] tells that the path itself is a symbolic
    link (resolving to a regular file or to a directory). *)
Inductive node :=
  | Missing
  | Regular (link : bool) (content : list byte)
  | Directory (link : bool)
  | DanglingLink.

Definition filesystem := string → node.

Definition is_file (n : node) : bool :=
  match n with Regular _ _ => true | _ => false end.
Definition is_symlink (n : node) : bool :=
  match n with
  | Regular l _ => l
  | Directory l => l
  | DanglingLink => true
  | Missing => false
  end.
Definition is_dir (n : node) : bool :=
  match n with Directory _ => true | _ => false end.

(** [Path(path).open('rb')] followed by [read()]. *)
Definition read_bytes (path : string) (n : node) : outcome (list byte) :=
  match n with
  | Regular _ bs => Returned bs
  | Directory _ => Raised (IsADirectoryError path)
  | DanglingLink | Missing => Raised (FileNotFoundError path)
  end.

(** [zlib.adler32] with its default starting value 1. *)
Definition adler32_step (ab : Z * Z) (x : byte) : Z * Z :=
  let a := (fst ab + Z.of_N (Byte.to_N x)) mod 65521 in
  (a, (snd ab + a) mod 65521).
Definition zlib_adler32 (data : list byte) : Z :=
  let ab := fold_left adler32_step data (1, 0) in
  Z.lor (Z.shiftl (snd ab) 16) (fst ab).

(** *** The state monad of the methods of [SymbiCache] *)

Definition M (A : Type) : Type := SymbiCache → SymbiCache * outcome A.

#[global] Instance M_ret : MRet M := λ A a c, (c, Returned a).
#[global] Instance M_bind : MBind M := λ A B f m c,
  match m c with
  | (c', Returned a) => f a c'
  | (c', Raised e) => (c', Raised e)
  end.

Definition lift {A} (o : outcome A) : M A := λ c, (c, o).

(** Reading and writing the attributes [self.status] and [self.hashes]. *)
Definition get_status_attr : M (table string) := λ c, (c, Returned (status c)).
Definition set_status_attr (t : table string) : M unit :=
  λ c, (mkCache (hashes c) t (cachefile_path c), Returned tt).
(** Every use of [self.hashes] in [update] and its helpers starts with
    [self.hashes.get(..)]; a [str] has no attribute [get]. *)
Definition get_hashes_table : M (table fingerprint) := λ c,
  match hashes c with
  | HTable t => (c, Returned t)
  | HRepr _ => (c, Raised (AttributeError "str" "get"))
  end.
Definition set_hashes_table (t : table fingerprint) : M unit :=
  λ c, (mkCache (HTable t) (status c) (cachefile_path c), Returned tt).

(** *** Dictionary steps shared by the helpers

    The helpers for [self.status] and for [self.hashes] are the same code on
    two tables; each step below is one Python statement. *)

(** [d.get(path) and d[path].get(consumer)], as a condition. *)
Definition entry_truthy {A} (tr : A → bool) (d : table A) (path consumer : string) : bool :=
  match d !! path with
  | Some inner => truthy_dict inner && from_option tr false (inner !! consumer)
  | None => false
  end.

(** [d[path].pop(consumer)], then [d.pop(path)] if [len(d[path]) == 0]. *)
Definition pop_entry {A} (d : table A) (path consumer : string) : table A :=
  match d !! path with
  | Some inner =>
      let inner' := delete consumer inner in
      if (size inner' =? 0)%nat then delete path d else <[path := inner']> d
  | None => d
  end.

(** [if not d.get(path): d[path] = {}]. *)
Definition ensure_path {A} (d : table A) (path : string) : table A :=
  if negb (from_option truthy_dict false (d !! path)) then <[path := ∅]> d else d.

(** [d[path][consumer] = v]; [path] is a key when this runs. *)
Definition set_entry {A} (d : table A) (path consumer : string) (v : A) : table A :=
  match d !! path with
  | Some inner => <[path := <[consumer := v]> inner]> d
  | None => d
  end.

(** *** The methods *)

Definition _try_pop_consumer (path consumer : string) : M unit :=
  st ← get_status_attr;
  (if entry_truthy truthy_str st path consumer
   then set_status_attr (pop_entry st path consumer)
   else mret tt) ;;
  hs ← get_hashes_table;
  if entry_truthy truthy_fp hs path consumer
  then set_hashes_table (pop_entry hs path consumer)
  else mret tt.

Definition _try_push_consumer_hash (path consumer : string) (hash : fingerprint) : M unit :=
  hs ← get_hashes_table;
  set_hashes_table (set_entry (ensure_path hs path) path consumer hash).

Definition _try_push_consumer_status (path consumer : string) (st : string) : M unit :=
  s ← get_status_attr;
  set_status_attr (set_entry (ensure_path s path) path consumer st).

(** [hash = 0], replaced by [str(zlib_adler32(rfptr.read()))] unless the path
    is a directory. *)
Definition compute_hash (path : string) (n : node) : outcome fingerprint :=
  if negb (is_dir n) then
    match read_bytes path n with
    | Returned bs => Returned (FStr (pretty (zlib_adler32 bs)))
    | Raised e => Raised e
    end
  else Returned (FInt 0).

Definition update (fs : filesystem) (path consumer : string) : M bool :=
  let n := fs path in
  let isdir := is_dir n in
  if negb (is_file n || is_symlink n || isdir) then
    _try_pop_consumer path consumer ;; mret true
  else
    hash ← lift (compute_hash path n);
    hs ← get_hashes_table;
    let last_hash := hs !! path ≫= (.!! consumer) in
    if bool_decide (Some hash ≠ last_hash) then
      _try_push_consumer_status path consumer "changed" ;;
      _try_push_consumer_hash path consumer hash ;;
      mret true
    else
      _try_push_consumer_status path consumer "same" ;;
      mret false.

Definition get_status (c : SymbiCache) (path consumer : string) : string :=
  match status c !! path with
  | Some statuses =>
      if negb (truthy_dict statuses) then "untracked"
      else match statuses !! consumer with
           | Some st => if negb (truthy_str st) then "untracked" else st
           | None => "untracked"
           end
  | None => "untracked"
  end.

(** *** Persistence *)

(** The cache file as [load] finds it: text that is not JSON
    ([JSONDecodeError]), the JSON text that [json_dump] writes for a value
    [v], which [json_load] reads back as [v], or a file for which [open] or
    the reading raises [e], an exception other than [FileNotFoundError] and
    [JSONDecodeError] (a directory, a file without read permission, bytes
    that are not text), which [load] does not catch. *)
Inductive file_content :=
  | Corrupt
  | JsonOf (v : hashes_val)
  | Unreadable (e : exn).

(** Files by path; a path with no file is not a key. *)
Abbreviation disk := (gmap string file_content).

(** [load] assigns [self.hashes] only; the object after the call.  When
    an exception leaves [load], nothing was assigned. *)
Definition load (d : disk) (c : SymbiCache) : SymbiCache :=
  match d !! cachefile_path c with
  | Some (JsonOf v) => mkCache v (status c) (cachefile_path c)
  | Some Corrupt => mkCache (HTable ∅) (status c) (cachefile_path c)
  | Some (Unreadable _) => c
  | None => mkCache (HTable ∅) (status c) (cachefile_path c)
  end.

(** How the call of [load] ends: the two exceptions it catches end in a
    warning, any other leaves it. *)
Definition load_outcome (d : disk) (c : SymbiCache) : outcome unit :=
  match d !! cachefile_path c with
  | Some (Unreadable e) => Raised e
  | _ => Returned tt
  end.

(** [json_dump(str(self.hashes), wfptr, indent=4)]. *)
Definition save (d : disk) (c : SymbiCache) : disk :=
  <[cachefile_path c := JsonOf (py_str (hashes c))]> d.

(** [SymbiCache(cachefile_path)]: [__init__] empties [self.status] and calls
    [load]; [self.hashes] has no value before that. *)
Definition init (d : disk) (cachefile_path : string) : SymbiCache :=
  load d (mkCache (HTable ∅) ∅ cachefile_path).

(** How the construction ends: with the object, or with the exception that
    left [load], and then no object is made. *)
Definition init_outcome (d : disk) (cachefile_path : string) : outcome SymbiCache :=
  match load_outcome d (mkCache (HTable ∅) ∅ cachefile_path) with
  | Returned _ => Returned (init d cachefile_path)
  | Raised e => Raised e
  end.

(** *** What is stored for a pair *)

(** [d[path][consumer]], when both keys are there. *)
Definition lookup2 {A} (d : table A) (path consumer : string) : option A :=
  d !! path ≫= (.!! consumer).

(** The fingerprint stored for a pair; a [str] stores none. *)
Definition stored_hash (c : SymbiCache) (path consumer : string) : option fingerprint :=
  match hashes c with
  | HTable t => lookup2 t path consumer
  | HRepr _ => None
  end.

(** The status recorded for a pair. *)
Definition stored_status (c : SymbiCache) (path consumer : string) : option string :=
  lookup2 (status c) path consumer.

(** The two composite steps of the helpers. *)
Definition pop_if {A} (tr : A → bool) (d : table A) (path consumer : string) : table A :=
  if entry_truthy tr d path consumer then pop_entry d path consumer else d.
Definition push {A} (d : table A) (path consumer : string) (v : A) : table A :=
  set_entry (ensure_path d path) path consumer v.

(** No path maps to an empty table of consumers. *)
Definition no_empty {A} (d : table A) : Prop :=
  ∀ path inner, d !! path = Some inner → inner ≠ ∅.

(** The path test of [update]: a file, a symlink or a directory. *)
Definition present (n : node) : bool := is_file n || is_symlink n || is_dir n.

(** A sequence of [update] calls, each with the file system of its moment;
    the object lives on whatever each call returns or raises. *)
Record call := mkCall { call_fs : filesystem; call_path : string; call_consumer : string }.
Definition run_call (k : call) (c : SymbiCache) : SymbiCache :=
  fst (update (call_fs k) (call_path k) (call_consumer k) c).
Definition run_calls (ks : list call) (c : SymbiCache) : SymbiCache :=
  fold_left (λ c k, run_call k c) ks c.

(** *** States and file systems to run the code on *)

(** The cache of a first run: no cache file yet. *)
Definition fresh_cache : SymbiCache := init ∅ ".symbicache".

Definition fs_empty : filesystem := λ _, Missing.
(** A build directory and one source file. *)
Definition fs_project : filesystem := λ path,
  if String.eqb path "build" then Directory false
  else if String.eqb path "top.v" then Regular false [x6d; x6f; x64]%byte
  else Missing.

(** After [update('build', 'synth')] on the project. *)
Definition tracked_dir : SymbiCache := fst (update fs_project "build" "synth" fresh_cache).
(** After [update('build', 'pack')] as well. *)
Definition tracked_dir2 : SymbiCache := fst (update fs_project "build" "pack" tracked_dir).
(** After [update('top.v', 'synth')] on the project. *)
Definition tracked_file : SymbiCache := fst (update fs_project "top.v" "synth" fresh_cache).

End Cache.

(** ** Modules and their invocation context, [f4pga/module.py] *)

Module ModulePy.

(** The values a configuration holds: nothing, a string (a path, a
    parameter), or a list of strings. *)
Inductive value :=
  | VNone
  | VStr (s : string)
  | VList (l : list string).

Definition is_none (v : value) : bool :=
  match v with VNone => true | _ => false end.

(** The qualifier of a declared name, as [decompose_depname] returns it:
    ['req'], ['maybe'] or ['demand']. *)
Inductive qualifier := req | maybe | demand.

Definition is_req (q : qualifier) : bool :=
  match q with req => true | _ => false end.

(** Modelled from the spec: [ResolutionEnv] is imported from [f4pga.common],
    which is not under src/.  Its one operation, [resolve], substitutes the
    symbolic references of a value against the scope; the context only
    calls it. *)
Record ResolutionEnv := mkEnv { resolve : value → value }.

(** Modelled from the spec: resolving a mapping (the explicit output paths)
    resolves each of its values and keeps its keys. *)
Definition resolve_dict (r_env : ResolutionEnv) (d : gmap string value) : gmap string value :=
  resolve r_env <$> d.

(** A [SimpleNamespace]: attributes by name. *)
Abbreviation SimpleNamespace := (gmap string value).

Definition setattr (obj : SimpleNamespace) (name : string) (v : value) : SimpleNamespace :=
  <[name := v]> obj.
(** [getattr(obj, name)] with no default. *)
Definition getattr (obj : SimpleNamespace) (name : string) : outcome value :=
  match obj !! name with
  | Some v => Returned v
  | None => Raised (AttributeError "types.SimpleNamespace" name)
  end.

(** [d.get(name)]. *)
Definition dict_get (d : gmap string value) (name : string) : value :=
  default VNone (d !! name).

Record ModuleContext := mkContext {
  share : string;
  bin : string;
  takes : SimpleNamespace;
  produces : SimpleNamespace;
  outputs : SimpleNamespace;
  values : SimpleNamespace;
  r_env : ResolutionEnv;
  module_name : string
}.

(** The class [Module]: its declared names and the [map_io] each stage
    supplies. *)
Record Module_ := mkModule {
  no_of_phases : Z;
  name : string;
  mod_takes : list string;
  mod_produces : list string;
  mod_values : list string;
  prod_meta : gmap string string;
  map_io : ModuleContext → gmap string value
}.

(** The raw configuration: [config['takes']], [config['values']],
    [config['produces']]. *)
Record config := mkConfig {
  cfg_takes : gmap string value;
  cfg_values : gmap string value;
  cfg_produces : gmap string value
}.

#[global] Instance outcome_ret : MRet outcome := λ A a, Returned a.
#[global] Instance outcome_bind : MBind outcome := λ A B f o,
  match o with
  | Returned a => f a
  | Raised e => Raised e
  end.

(** The names bound at the top level of [module.py]: its four imports, its
    three classes and its function. *)
Definition module_globals : list string :=
  ["SimpleNamespace"; "abstractmethod"; "decompose_depname"; "ResolutionEnv";
   "Module"; "ModuleContext"; "ModuleRuntimeException"; "get_mod_metadata"].

(** Looking a global name up, as a call does before its arguments are
    evaluated. *)
Definition load_global (id : string) : outcome unit :=
  if bool_decide (id ∈ module_globals) then Returned tt else Raised (NameError id).

(** The message of [_getreqmaybe]. *)
Definition missing_message (dep stage : string) : string :=
  "Dependency `" +:+ dep +:+ "` is required by module `" +:+ stage
    +:+ "` but wasn't provided".

(** [fatal(-1, f'Dependency ...')]. *)
Definition call_fatal (dep stage : string) : outcome unit :=
  load_global "fatal" ;; Raised (Fatal (-1) (missing_message dep stage)).

Definition is_output_explicit (ctx : ModuleContext) (id : string) : outcome bool :=
  v ← getattr (produces ctx) id;
  mret (negb (is_none v)).

Section with_decoder.

(** [decompose_depname] is imported from [f4pga.common], which is not under
    src/: the decoder of declared names is a parameter. *)
Variable decompose_depname : string → string * qualifier.

(** A declared name that is required and has no value: the test of
    [_getreqmaybe]. *)
Definition unmet (deps_cfg : gmap string value) (dep : string) : bool :=
  is_none (dict_get deps_cfg (decompose_depname dep).1) && is_req (decompose_depname dep).2.

Fixpoint _getreqmaybe (stage : string) (env : ResolutionEnv) (obj : SimpleNamespace)
    (deps : list string) (deps_cfg : gmap string value) : outcome SimpleNamespace :=
  match deps with
  | [] => Returned obj
  | dep :: deps' =>
      let '(id, spec) := decompose_depname dep in
      let v := dict_get deps_cfg id in
      (if is_none v && is_req spec then call_fatal id stage else Returned tt) ;;
      _getreqmaybe stage env (setattr obj id (resolve env v)) deps' deps_cfg
  end.

(** The context as [map_io] receives it: inputs, values and explicit outputs
    bound, [outputs] still empty. *)
Definition partial_context (module : Module_) (env : ResolutionEnv) (share bin : string)
    (tk vl pr : SimpleNamespace) : ModuleContext :=
  mkContext share bin tk pr ∅ vl env (name module).

(** [ModuleContext.__init__]. *)
Definition ModuleContext_init (module : Module_) (cfg : config) (env : ResolutionEnv)
    (share bin : string) : outcome ModuleContext :=
  tk ← _getreqmaybe (name module) env ∅ (mod_takes module) (cfg_takes cfg);
  vl ← _getreqmaybe (name module) env ∅ (mod_values module) (cfg_values cfg);
  let produces_resolved := resolve_dict env (cfg_produces cfg) in
  let pr := map_fold (λ id v obj, setattr obj id v) ∅ produces_resolved in
  let outs := map_io module (partial_context module env share bin tk vl pr) in
  let outs := produces_resolved ∪ outs in
  out ← _getreqmaybe (name module) env ∅ (mod_produces module) outs;
  mret (mkContext share bin tk pr out vl env (name module)).

End with_decoder.

(** *** A decoder and a scope to run the code on *)

(** The last character of a string and what precedes it. *)
Fixpoint split_last (s : string) : option (string * ascii) :=
  match s with
  | EmptyString => None
  | String a EmptyString => Some (EmptyString, a)
  | String a s' =>
      match split_last s' with
      | Some (body, l) => Some (String a body, l)
      | None => None
      end
  end.

(** Modelled from the spec: [decompose_depname] is not under src/.  The
    qualifier is a trailing marker on the declared string, [?] for
    optional and [!] for on-demand (the two characters [get_mod_metadata]
    strips); any other ending decodes to required. *)
Definition decompose_suffix (dep : string) : string * qualifier :=
  match split_last dep with
  | Some (body, "?"%char) => (body, maybe)
  | Some (body, "!"%char) => (body, demand)
  | _ => (dep, req)
  end.

(** A scope with no symbolic references to substitute. *)
Definition plain_env : ResolutionEnv := mkEnv (λ v, v).

(** A stage that derives no output paths. *)
Definition stage (id : string) (tk pr vl : list string) : Module_ :=
  mkModule 0 id tk pr vl ∅ (λ _, ∅).

Definition empty_config : config := mkConfig ∅ ∅ ∅.

(** The stage [synth] constructed on the empty configuration. *)
Definition synth_context (tk pr vl : list string) : outcome ModuleContext :=
  ModuleContext_init decompose_suffix (stage "synth" tk pr vl) empty_config plain_env
    "share" "bin".

(** A context whose only attribute is the input [x], bound to [None]. *)
Definition context_x_none : ModuleContext :=
  mkContext "share" "bin" {[ "x" := VNone ]} ∅ ∅ ∅ plain_env "synth".

End ModulePy.

(** ** The states of a cache in use *)

Module CacheStates.
Import Cache.

(** The states a cache started without a readable file can reach: a table
    of fingerprints, no path without a consumer, and every status one that
    [update] records, on a pair that has a fingerprint. *)
Definition sound (c : SymbiCache) : Prop :=
  ∃ t, hashes c = HTable t ∧ no_empty t ∧ no_empty (status c) ∧
    ∀ p m st, lookup2 (status c) p m = Some st →
      (st = "changed" ∨ st = "same") ∧ is_Some (lookup2 t p m).

(** *** Adler-32 as RFC 1950 words it

    Two sums over the bytes: [s1] is one plus the sum of the bytes, [s2] is
    the sum of the values [s1] takes after each byte; both are taken modulo
    65521 and the checksum is [s2 * 65536 + s1]. *)

Definition adler_s1 (data : list byte) : Z :=
  1 + foldr (λ x acc, Z.of_N (Byte.to_N x) + acc) 0 data.
Definition adler_s2 (data : list byte) : Z :=
  foldr Z.add 0 ((λ k, adler_s1 (take k data)) <$> seq 1 (length data)).
Definition adler32_rfc (data : list byte) : Z :=
  (adler_s2 data mod 65521) * 65536 + adler_s1 data mod 65521.

End CacheStates.

(** ** Descriptions of the outputs, [get_mod_metadata] in [f4pga/module.py] *)

Module ModuleMeta.
Import ModulePy.

(** [s.replace(c, '')] for a one-character [c]: every occurrence goes. *)
Fixpoint remove_char (c : ascii) (s : string) : string :=
  match s with
  | EmptyString => EmptyString
  | String a s' =>
      if Ascii.eqb a c then remove_char c s' else String a (remove_char c s')
  end.

(** [prod.replace('?', '').replace('!', '')]. *)
Definition strip_markers (prod : string) : string :=
  remove_char "!" (remove_char "?" prod).

(** One turn of the loop of [get_mod_metadata]; [prod_meta] is [None] when
    the module object has no attribute [prod_meta]. *)
Definition metadata_step (prod_meta : option (gmap string string))
    (meta : gmap string string) (prod : string) : gmap string string :=
  let prod := strip_markers prod in
  match prod_meta with
  | None => <[prod := "<no descritption>"]> meta
  | Some pm =>
      match pm !! prod with
      | Some d => <[prod := if Cache.truthy_str d then d else "<no description>"]> meta
      | None => <[prod := "<no description>"]> meta
      end
  end.

(** [get_mod_metadata(module)], on the two attributes of the module that it
    reads. *)
Definition get_mod_metadata (produces : list string)
    (prod_meta : option (gmap string string)) : gmap string string :=
  fold_left (metadata_step prod_meta) produces ∅.

(** The description [get_mod_metadata] gives a stripped name. *)
Definition description (prod_meta : option (gmap string string)) (prod : string) : string :=
  match prod_meta with
  | None => "<no descritption>"
  | Some pm =>
      match pm !! prod with
      | Some d => if Cache.truthy_str d then d else "<no description>"
      | None => "<no description>"
      end
  end.

(** The bare names a list of declarations decodes to. *)
Definition bare_names (decompose_depname : string → string * qualifier)
    (deps : list string) : list string :=
  (λ dep, (decompose_depname dep).1) <$> deps.

(** *** A stage with a derived and an explicit output *)

(** A scope that marks each value it resolves. *)
Definition marking_env : ResolutionEnv :=
  mkEnv (λ v, match v with VStr s => VStr ("r:" +:+ s) | _ => v end).

(** A stage with one required input, one required output that [map_io]
    derives, and one on-demand output. *)
Definition synth_stage : Module_ :=
  mkModule 0 "synth" ["top"] ["eblif"; "log!"] [] {[ "eblif" := "netlist" ]}
    (λ _, {[ "eblif" := VStr "build/top.eblif" ]}).

(** The input is given, and the derived output has an explicit path. *)
Definition synth_config : config :=
  mkConfig {[ "top" := VStr "top.v" ]} ∅ {[ "eblif" := VStr "out.eblif" ]}.

Definition synth_built : ModuleContext :=
  match ModuleContext_init decompose_suffix synth_stage synth_config marking_env
          "share" "bin" with
  | Returned ctx => ctx
  | Raised _ => context_x_none
  end.

End ModuleMeta.

(** ** The module inspector, [f4pga/flows/inspector.py] *)

Module Inspector.
Import ModulePy.

(** The entry of one declared name in the info dictionary: the dict
    [{'qualifier': q}], with the key ['meta'] added when a description is
    found. *)
Record io_dict := mkIo { io_qualifier : qualifier; io_meta : option string }.

Section with_decoder.

(** [decompose_depname] comes from [f4pga.flows.common] and the two
    [colorama.Style] strings from [colorama]: none is under src/. *)
Variable decompose_depname : string → string * qualifier.
Variables BRIGHT RESET_ALL : string.

Definition qualifier_eqb (a b : qualifier) : bool :=
  match a, b with
  | req, req | maybe, maybe | demand, demand => true
  | _, _ => false
  end.

(** The generator [_get_if_qualifier], as the list of what it yields. *)
Fixpoint _get_if_qualifier (deplist : list string) (q : qualifier) : list string :=
  match deplist with
  | [] => []
  | dep_name :: rest =>
      let '(id, q') := decompose_depname dep_name in
      if qualifier_eqb q' q
      then ("● " +:+ BRIGHT +:+ id +:+ RESET_ALL) :: _get_if_qualifier rest q
      else _get_if_qualifier rest q
  end.

(** ["".join([" " for _ in range(0, indent)])]. *)
Definition indent_str (indent : Z) : string :=
  String.concat "" (replicate (Z.to_nat indent) " ").

Definition newline : string := String (ascii_of_nat 10) EmptyString.

Definition _list_if_qualifier (deplist : list string) (q : qualifier) (indent : Z) : string :=
  fold_left (λ r line, r +:+ indent_str indent +:+ line +:+ newline)
    (_get_if_qualifier deplist q) "".

Definition get_module_info (module : Module_) : string :=
  let r := "" in
  let r := r +:+ "Module `" +:+ BRIGHT +:+ name module +:+ RESET_ALL +:+ "`:" +:+ newline in
  let r := r +:+ "Inputs:" +:+ newline +:+ "  Required:" +:+ newline
             +:+ "    Dependencies" +:+ newline in
  let r := r +:+ _list_if_qualifier (mod_takes module) req 6 in
  let r := r +:+ "    Values:" +:+ newline in
  let r := r +:+ _list_if_qualifier (mod_values module) req 6 in
  let r := r +:+ "  Optional:" +:+ newline +:+ "    Dependencies:" +:+ newline in
  let r := r +:+ _list_if_qualifier (mod_takes module) maybe 6 in
  let r := r +:+ "    Values:" +:+ newline in
  let r := r +:+ _list_if_qualifier (mod_values module) maybe 6 in
  let r := r +:+ "Outputs:" +:+ newline +:+ "  Guaranteed:" +:+ newline in
  let r := r +:+ _list_if_qualifier (mod_produces module) req 4 in
  let r := r +:+ "  On-demand:" +:+ newline in
  let r := r +:+ _list_if_qualifier (mod_produces module) demand 4 in
  let r := r +:+ "  Not guaranteed:" +:+ newline in
  let r := r +:+ _list_if_qualifier (mod_produces module) maybe 4 in
  r.

Definition _make_io_dict (io : string) (metas : option (gmap string string))
    : string * io_dict :=
  let '(id, q) := decompose_depname io in
  (id, mkIo q (metas ≫= (.!! id))).

(** [dict(..)] over the pairs, in order: a later pair replaces an earlier
    one with the same key. *)
Definition _make_io_dict_dict (ios : list string) (metas : option (gmap string string))
    : gmap string io_dict :=
  fold_left (λ d io, let '(id, e) := _make_io_dict io metas in <[id := e]> d) ios ∅.

(** The three entries of the dict that [_get_module_info_dict] returns. *)
Record module_info := mkInfo {
  info_takes : gmap string io_dict;
  info_produces : gmap string io_dict;
  info_values : gmap string io_dict
}.

(** [has_prod_meta] is [hasattr(module, 'prod_meta')]: a stage class that
    does not run [Module.__init__] makes objects without the attribute. *)
Definition _get_module_info_dict (has_prod_meta : bool) (module : Module_) : module_info :=
  mkInfo (_make_io_dict_dict (mod_takes module) None)
         (_make_io_dict_dict (mod_produces module)
            (if has_prod_meta then Some (prod_meta module) else None))
         (_make_io_dict_dict (mod_produces module) None).

End with_decoder.

End Inspector.

(** ** Placement constraints, [f4pga/aux/utils/vpr_place_constraints.py] *)

Module PlacePy.

(** An element of the parsed [.net] file, as [lxml.etree] gives it: tag,
    attributes, text and child elements. *)
#[local] Set Warnings "-register-all".
Inductive element :=
  | Element (tag : string) (attrib : gmap string string) (text : option string)
      (children : list element).
#[local] Set Warnings "register-all".

Definition tag (e : element) : string := match e with Element t _ _ _ => t end.
Definition attrib (e : element) : gmap string string := match e with Element _ a _ _ => a end.
Definition text (e : element) : option string := match e with Element _ _ x _ => x end.
Definition getchildren (e : element) : list element := match e with Element _ _ _ c => c end.

(** An element of the tree is known by its place: the child indices that
    lead to it, the innermost first.  The root is [[]]. *)
Definition place := list nat.

Definition getparent (curr : place) : option place :=
  match curr with
  | [] => None
  | _ :: parent => Some parent
  end.

(** The element found by following indices from an element down. *)
Fixpoint descend (e : element) (path : list nat) : option element :=
  match path with
  | [] => Some e
  | i :: path' =>
      match getchildren e !! i with
      | Some c => descend c path'
      | None => None
      end
  end.

(** The element at a place of the tree under [root]. *)
Definition element_at (root : element) (at_ : place) : option element :=
  descend root (rev at_).

(** The elements of a tree in document order, each with its place. *)
Fixpoint walk (here : place) (e : element) : list (place * element) :=
  match e with
  | Element _ _ _ cs =>
      (here, e) ::
      (fix walk_children (i : nat) (cs : list element) : list (place * element) :=
         match cs with
         | [] => []
         | c :: cs' => (walk (i :: here) c ++ walk_children (S i) cs')%list
         end) 0%nat cs
  end.

(** [root.iter(tag)], and [root.xpath('//tag')] alike: the elements of the
    document with that tag, in document order. *)
Definition iter (root : element) (tg : string) : list (place * element) :=
  filter (λ pe, tag pe.2 = tg) (walk [] root).

(** One turn of the loop of [get_root_cluster] is one recursive call. *)
Fixpoint get_root_cluster (curr : place) : option place :=
  match curr with
  | [] => None
  | _ :: parent =>
      match parent with
      | [] => Some curr
      | _ :: _ => get_root_cluster parent
      end
  end.

(** The exceptions of this file. *)
Inductive error :=
  | KeyError (key : string)
  | AssertionError
  | AttributeError (obj attr : string)
  | SystemExit (code : Z).

Inductive result (A : Type) :=
  | Done (a : A)
  | Failed (e : error).
Arguments Done {A} a.
Arguments Failed {A} e.

(** [PlaceConstraint = namedtuple('PlaceConstraint', 'name x y z comment')]. *)
Record PlaceConstraint := mkConstraint {
  pc_name : string; pc_x : Z; pc_y : Z; pc_z : Z; pc_comment : string
}.

(** A dictionary that is iterated over: its items in insertion order. *)
Fixpoint od_set {K V} `{EqDecision K} (d : list (K * V)) (k : K) (v : V) : list (K * V) :=
  match d with
  | [] => [(k, v)]
  | (k', v') :: d' => if decide (k' = k) then (k, v) :: d' else (k', v') :: od_set d' k v
  end.
Fixpoint od_get {K V} `{EqDecision K} (d : list (K * V)) (k : K) : option V :=
  match d with
  | [] => None
  | (k', v') :: d' => if decide (k' = k) then Some v' else od_get d' k
  end.

(** The object: [block_to_root_block] is not an attribute until
    [load_loc_sites_from_net_file] has run. *)
Record PlaceConstraints := mkPlace {
  constraints : list (string * PlaceConstraint);
  block_to_loc : list (option string * option string);
  net_root : element;
  block_to_root_block : option (gmap string string)
}.

(** [PlaceConstraints(net_file)], on the parsed file. *)
Definition init (root : element) : PlaceConstraints := mkPlace [] [] root None.

(** [e.attrib[key]]. *)
Definition attrib_item (e : element) (key : string) : result string :=
  match attrib e !! key with
  | Some v => Done v
  | None => Failed (KeyError key)
  end.

(** The first loop of [load_loc_sites_from_net_file], over the [block]
    elements that are left. *)
Fixpoint load_roots (root : element) (blocks : list (place * element))
    (d : gmap string string) : gmap string string * result unit :=
  match blocks with
  | [] => (d, Done tt)
  | (at_, el) :: blocks' =>
      match get_root_cluster at_ with
      | None => load_roots root blocks' d
      | Some r =>
          match element_at root r with
          | None => (d, Failed (AttributeError "NoneType" "attrib"))
          | Some root_block =>
              match attrib_item root_block "name", attrib_item el "name" with
              | Failed e, _ => (d, Failed e)
              | Done _, Failed e => (d, Failed e)
              | Done v, Done k => load_roots root blocks' (<[k := v]> d)
              end
          end
      end
  end.

(** The [while] loop that climbs from [top_block] to the child of the root
    above it.  Once [top_block] is [None], the loop test fails on
    [None.getparent()]. *)
Fixpoint climb (top_block : place) : result place :=
  match top_block with
  | [] => Failed (AttributeError "NoneType" "getparent")
  | _ :: parent =>
      match parent with
      | [] => Done top_block
      | _ :: _ => climb parent
      end
  end.

(** The second loop, over the [attribute] elements that are left. *)
Fixpoint load_locs (root : element) (attrs : list (place * element))
    (d : list (option string * option string))
    : list (option string * option string) * result unit :=
  match attrs with
  | [] => (d, Done tt)
  | (at_, attr) :: attrs' =>
      match attrib_item attr "name" with
      | Failed e => (d, Failed e)
      | Done nm =>
          if negb (String.eqb nm "LOC") then load_locs root attrs' d
          else
            match getparent at_ with
            | None => (d, Failed AssertionError)
            | Some top_block =>
                match climb top_block with
                | Failed e => (d, Failed e)
                | Done top =>
                    match element_at root top with
                    | None => (d, Failed (AttributeError "NoneType" "get"))
                    | Some b => load_locs root attrs' (od_set d (attrib b !! "name") (text attr))
                    end
                end
            end
      end
  end.

Definition load_loc_sites_from_net_file (s : PlaceConstraints) : PlaceConstraints * result unit :=
  let '(roots, r1) := load_roots (net_root s) (iter (net_root s) "block") ∅ in
  match r1 with
  | Failed e => (mkPlace (constraints s) (block_to_loc s) (net_root s) (Some roots), Failed e)
  | Done _ =>
      let '(locs, r2) := load_locs (net_root s) (iter (net_root s) "attribute") (block_to_loc s) in
      (mkPlace (constraints s) locs (net_root s) (Some roots), r2)
  end.

Definition constrain_block (block_name : string) (loc : list Z) (comment : string)
    (s : PlaceConstraints) : PlaceConstraints * result unit :=
  if negb (length loc =? 3)%nat then (s, Failed AssertionError)
  else if bool_decide (is_Some (od_get (constraints s) block_name)) then (s, Failed AssertionError)
  else
    let place_constraint :=
      mkConstraint block_name (default 0 (loc !! 0%nat)) (default 0 (loc !! 1%nat))
        (default 0 (loc !! 2%nat)) comment in
    match block_to_root_block s with
    | None => (s, Failed (AttributeError "PlaceConstraints" "block_to_root_block"))
    | Some roots =>
        match roots !! block_name with
        | None => (s, Failed (KeyError block_name))
        | Some root_block =>
            (mkPlace (od_set (constraints s) root_block place_constraint) (block_to_loc s)
               (net_root s) (block_to_root_block s), Done tt)
        end
    end.

(** [get_loc_sites], as the list of the pairs it yields. *)
Definition get_loc_sites (s : PlaceConstraints) : list (option string * option string) :=
  block_to_loc s.

(** *** Writing the constraints *)

(** A Python [str] is kept as the bytes of its UTF-8 encoding; [len] and
    the widths of [str.format] count its code points, which are the bytes
    that do not continue a character (those outside [0x80..0xBF]). *)
Definition is_continuation (a : ascii) : bool :=
  (128 <=? nat_of_ascii a)%nat && (nat_of_ascii a <? 192)%nat.
Fixpoint py_len (x : string) : nat :=
  match x with
  | EmptyString => 0%nat
  | String a x' => if is_continuation a then py_len x' else S (py_len x')
  end.

(** [str.format] with [<n]: the text, then spaces up to [n] characters. *)
Definition pad_right (n : nat) (x : string) : string :=
  x +:+ String.concat "" (replicate (n - py_len x) " ").
Definition pad_left (n : nat) (x : string) : string :=
  String.concat "" (replicate (n - py_len x) " ") +:+ x.

(** An integer under the format [{: n}]: a space or a minus sign, the
    digits, and spaces in front up to [n] characters. *)
Definition format_int (n : nat) (z : Z) : string :=
  pad_left n (if z <? 0 then pretty z else " " +:+ pretty z).

(** [CONSTRAINT_TEMPLATE.format(..)]. *)
Definition format_constraint (nl : nat) (c : PlaceConstraint) : string :=
  pad_right nl (pc_name c) +:+ " " +:+ format_int 3 (pc_x c) +:+ " "
    +:+ format_int 3 (pc_y c) +:+ " " +:+ format_int 2 (pc_z c) +:+ "  # " +:+ pc_comment c.

(** [max(len(c.name) for c in self.constraints.values())]. *)
Definition max_name_length (cs : list (string * PlaceConstraint)) : nat :=
  foldr (λ kc n, Nat.max (py_len (pc_name kc.2)) n) 0%nat cs.

(** The loop of [output_place_constraints] over the items that are left:
    the lines written to [f], and how the loop ends. *)
Fixpoint output_loop (nl : nat) (items : list (string * PlaceConstraint))
    (constrained_blocks : gmap string PlaceConstraint) : list string * result unit :=
  match items with
  | [] => ([], Done tt)
  | (_, constraint) :: items' =>
      let nm := pc_name constraint in
      match constrained_blocks !! nm with
      | Some existing =>
          if negb (pc_x existing =? pc_x constraint) || negb (pc_y existing =? pc_y constraint)
             || negb (pc_z existing =? pc_z constraint)
          then ([], Failed (SystemExit (-1)))
          else output_loop nl items' constrained_blocks
      | None =>
          let '(lines, r) := output_loop nl items' (<[nm := constraint]> constrained_blocks) in
          (format_constraint nl constraint :: lines, r)
      end
  end.

Definition output_place_constraints (s : PlaceConstraints) : list string * result unit :=
  match constraints s with
  | [] => ([], Done tt)
  | _ => output_loop (max_name_length (constraints s)) (constraints s) ∅
  end.

(** [instance in inst]. *)
Definition contains (needle hay : string) : bool :=
  match String.index 0 needle hay with Some _ => true | None => false end.

(** The loop of [get_used_instances] over the [block] elements left. *)
Fixpoint used_loop (root : element) (instance : string) (blocks : list (place * element))
    : result (list string) :=
  match blocks with
  | [] => Done []
  | (at_, el) :: blocks' =>
      match attrib_item el "instance" with
      | Failed e => Failed e
      | Done inst =>
          if contains instance inst && negb (length (getchildren el) =? 0)%nat then
            match get_root_cluster at_ ≫= element_at root with
            | None => Failed (AttributeError "NoneType" "attrib")
            | Some r =>
                match attrib_item r "name" with
                | Failed e => Failed e
                | Done nm =>
                    match used_loop root instance blocks' with
                    | Done l => Done (nm :: l)
                    | Failed e => Failed e
                    end
                end
            end
          else used_loop root instance blocks'
      end
  end.

Definition get_used_instances (s : PlaceConstraints) (instance : string) : result (list string) :=
  used_loop (net_root s) instance (iter (net_root s) "block").

(** *** A packed netlist to run the code on *)

Definition block (nm inst : string) (children : list element) : element :=
  Element "block" {[ "name" := nm; "instance" := inst ]} None children.

(** [<attributes><attribute name="LOC">loc</attribute></attributes>]. *)
Definition loc_attribute (loc : string) : element :=
  Element "attributes" ∅ None [Element "attribute" {[ "name" := "LOC" ]} (Some loc) []].

(** A top block with two clusters: a logic block holding a placed LUT and
    an unused delay controller, and a used delay controller. *)
Definition net : element :=
  block "top" "FPGA_packed_netlist[0]"
    [ block "clb0" "CLB[0]"
        [ block "lut_a" "LUT[0]" [loc_attribute "SLICE_X1Y2"];
          block "open" "IDELAYCTRL[0]" [] ];
      block "idelay" "IDELAYCTRL[1]" [Element "inputs" ∅ None []] ].

Definition net_loaded : PlaceConstraints := (load_loc_sites_from_net_file (init net)).1.

(** *** The object in use *)

(** What a caller does with the object between its construction and the
    writing of the constraints. *)
Inductive operation :=
  | Load
  | Constrain (block_name : string) (loc : list Z) (comment : string).

Definition run_operation (s : PlaceConstraints) (o : operation) : PlaceConstraints :=
  match o with
  | Load => (load_loc_sites_from_net_file s).1
  | Constrain b loc comment => (constrain_block b loc comment s).1
  end.

Definition run_operations (os : list operation) (s : PlaceConstraints) : PlaceConstraints :=
  fold_left run_operation os s.

(** The states the operations keep the object in: one constraint for each
    key, each filed under the root block of the block it names, and the map
    of root blocks, once set, the one computed from the netlist. *)
Definition well_keyed (s : PlaceConstraints) : Prop :=
  NoDup (constraints s).*1 ∧
  (∀ k c, (k, c) ∈ constraints s → block_to_root_block s ≫= (.!! pc_name c) = Some k) ∧
  (block_to_root_block s = None ∨
   block_to_root_block s
     = Some (load_roots (net_root s) (iter (net_root s) "block") ∅).1).

End PlacePy.

(** ** Build identifiers of artifacts, [extract_bhash] in [f4pga/common/tdm.py] *)

Module Tdm.

(** A piece of a regular expression as the backtracking matcher of [re]
    runs it: on the text that is left, with what to do after it; [None] is
    a failure, which sends the matcher back to the last choice. *)
Definition matcher (R : Type) : Type := string → (string → option R) → option R.

(** One given character. *)
Definition lit {R} (c : ascii) : matcher R := λ s k,
  match s with
  | String a s' => if Ascii.eqb a c then k s' else None
  | EmptyString => None
  end.

(** [[..]*], greedy: one more character of the class when the rest can
    still match, none otherwise. *)
Fixpoint star {R} (p : ascii → bool) (s : string) (k : string → option R) : option R :=
  match s with
  | String a s' =>
      if p a then
        match star p s' k with
        | Some r => Some r
        | None => k s
        end
      else k s
  | EmptyString => k s
  end.

(** [(..)?], greedy: with the group when the rest can still match. *)
Definition opt {R} (body : matcher R) : matcher R := λ s k,
  match body s k with
  | Some r => Some r
  | None => k s
  end.

(** The first [n] characters. *)
Fixpoint take (n : nat) (s : string) : string :=
  match n, s with
  | S n', String a s' => String a (take n' s')
  | _, _ => EmptyString
  end.

(** [(..)]: the text the body went over is handed on with the rest. *)
Definition capture {R} (body : matcher R) (s : string) (k : string → string → option R)
    : option R :=
  body s (λ s', k (take (String.length s - String.length s') s) s').

Definition not_dot (a : ascii) : bool := negb (Ascii.eqb a ".").
Definition not_dot_dash (a : ascii) : bool := negb (Ascii.eqb a ".") && negb (Ascii.eqb a "-").
(** [.] matches anything but a newline. *)
Definition not_newline (a : ascii) : bool := negb (Ascii.eqb a (ascii_of_nat 10)).

(** [re.match(pattern, name)], and [m.groups()[0]] when it matches.  The
    pattern reads: a run of characters other than dots, a dash, as group 1 a
    run of characters that are neither dots nor dashes and, if it is there,
    as group 2 a dot and the rest of the line. *)
Definition extract_bhash (name : string) : option string :=
  star not_dot name (λ s1,
    lit "-" s1 (λ s2,
      capture (star not_dot_dash) s2 (λ g1 s3,
        opt (λ s k, lit "." s (λ s4, star not_newline s4 k)) s3 (λ _, Some g1)))).

(** Every character is of the class. *)
Fixpoint all_chars (p : ascii → bool) (s : string) : bool :=
  match s with
  | EmptyString => true
  | String a s' => p a && all_chars p s'
  end.

(** The text ends, or goes on with a dot. *)
Definition ends_or_dot (s : string) : bool :=
  match s with
  | EmptyString => true
  | String a _ => Ascii.eqb a "."
  end.

End Tdm.

(** ** The choice of the constraint writer, [f4pga/utils/__init__.py] *)

Module UtilsInit.

(** The two functions the module imports. *)
Inductive writer := xc7_create_place_constraints | pp3_create_place_constraints.

(** The names bound when the [if] runs: the three imports. *)
Definition utils_globals : list string :=
  ["xc7_create_place_constraints"; "pp3_create_place_constraints"; "FPGA_FAM"].

Definition load_global (id : string) : outcome unit :=
  if bool_decide (id ∈ utils_globals) then Returned tt else Raised (NameError id).

(** Running the module body for a value of [f4pga.context.FPGA_FAM]: what
    [create_place_constraints] is bound to, if it is bound.  The [elif]
    reads the name [F4PGA_FAM]. *)
Definition import_utils (FPGA_FAM : string) : outcome (option writer) :=
  if String.eqb FPGA_FAM "xc7" then Returned (Some xc7_create_place_constraints)
  else
    match load_global "F4PGA_FAM" with
    | Raised e => Raised e
    | Returned _ => Returned None
    end.

End UtilsInit.

(** ** Facts about the cache *)

Module CacheFacts.
Import Cache.

(** *** The dictionary steps *)

Section table_lemmas.
Context {A : Type}.
Implicit Types (d : table A) (inner : gmap string A) (p q m k : string).

Lemma truthy_dict_false inner : truthy_dict inner = false ↔ inner = ∅.
Proof.
  unfold truthy_dict. rewrite negb_false_iff, Nat.eqb_eq. apply map_size_empty_iff.
Qed.

Lemma truthy_dict_true inner : truthy_dict inner = true ↔ inner ≠ ∅.
Proof.
  rewrite <- truthy_dict_false. destruct (truthy_dict inner); split; congruence.
Qed.

Lemma size_eqb_empty inner : (size inner =? 0)%nat = true ↔ inner = ∅.
Proof. rewrite Nat.eqb_eq. apply map_size_empty_iff. Qed.

Lemma lookup2_pop_entry_eq d p m : lookup2 (pop_entry d p m) p m = None.
Proof.
  unfold lookup2, pop_entry. destruct (d !! p) as [inner|] eqn:E.
  - destruct (size (delete m inner) =? 0)%nat.
    + by rewrite lookup_delete_eq.
    + rewrite lookup_insert_eq. simpl. apply lookup_delete_eq.
  - by rewrite E.
Qed.

Lemma lookup2_pop_entry_ne d p m q k :
  (p, m) ≠ (q, k) → lookup2 (pop_entry d p m) q k = lookup2 d q k.
Proof.
  intros Hne. unfold lookup2, pop_entry.
  destruct (d !! p) as [inner|] eqn:E; [|done].
  destruct (decide (p = q)) as [->|Hpq].
  - assert (m ≠ k) as Hmk by congruence. rewrite E. simpl.
    destruct (size (delete m inner) =? 0)%nat eqn:Hs.
    + apply size_eqb_empty in Hs. rewrite lookup_delete_eq. simpl.
      rewrite <- (lookup_delete_ne inner m k) by done. by rewrite Hs, lookup_empty.
    + rewrite lookup_insert_eq. simpl. by apply lookup_delete_ne.
  - destruct (size (delete m inner) =? 0)%nat.
    + by rewrite lookup_delete_ne.
    + by rewrite lookup_insert_ne.
Qed.

Lemma lookup2_pop_if_ne tr d p m q k :
  (p, m) ≠ (q, k) → lookup2 (pop_if tr d p m) q k = lookup2 d q k.
Proof.
  intros. unfold pop_if. destruct (entry_truthy tr d p m); [|done].
  by apply lookup2_pop_entry_ne.
Qed.

Lemma ensure_path_lookup d p :
  ∃ inner, ensure_path d p !! p = Some inner ∧
    ∀ k, inner !! k = lookup2 d p k.
Proof.
  unfold ensure_path, lookup2. destruct (d !! p) as [inner|] eqn:E; simpl.
  - destruct (truthy_dict inner) eqn:T; simpl.
    + exists inner. by rewrite E.
    + apply truthy_dict_false in T as ->. exists ∅. by rewrite lookup_insert_eq.
  - exists ∅. rewrite lookup_insert_eq. split; [done|]. intros. apply lookup_empty.
Qed.

Lemma ensure_path_lookup_ne d p q : p ≠ q → ensure_path d p !! q = d !! q.
Proof.
  intros. unfold ensure_path.
  destruct (negb _); [by rewrite lookup_insert_ne|done].
Qed.

Lemma lookup2_push_eq d p m v : lookup2 (push d p m v) p m = Some v.
Proof.
  unfold push, set_entry, lookup2.
  destruct (ensure_path_lookup d p) as (inner & -> & _).
  rewrite lookup_insert_eq. simpl. apply lookup_insert_eq.
Qed.

Lemma lookup2_push_ne d p m v q k :
  (p, m) ≠ (q, k) → lookup2 (push d p m v) q k = lookup2 d q k.
Proof.
  intros Hne. unfold push, set_entry.
  destruct (ensure_path_lookup d p) as (inner & E & Hin). rewrite E.
  unfold lookup2 at 1. destruct (decide (p = q)) as [->|Hpq].
  - assert (m ≠ k) as Hmk by congruence.
    rewrite lookup_insert_eq. simpl. rewrite lookup_insert_ne by done. apply Hin.
  - rewrite lookup_insert_ne by done. rewrite ensure_path_lookup_ne by done. done.
Qed.

Lemma no_empty_pop_entry d p m : no_empty d → no_empty (pop_entry d p m).
Proof.
  intros Hd q inner. unfold pop_entry.
  destruct (d !! p) as [i|] eqn:E; [|apply Hd].
  destruct (size (delete m i) =? 0)%nat eqn:Hs.
  - rewrite lookup_delete. case_decide; [done|apply Hd].
  - rewrite lookup_insert. case_decide; [|apply Hd].
    intros [= <-] He. apply size_eqb_empty in He. congruence.
Qed.

Lemma no_empty_pop_if tr d p m : no_empty d → no_empty (pop_if tr d p m).
Proof.
  intros. unfold pop_if. destruct (entry_truthy tr d p m); [|done].
  by apply no_empty_pop_entry.
Qed.

Lemma no_empty_push d p m v : no_empty d → no_empty (push d p m v).
Proof.
  intros Hd q inner. unfold push, set_entry.
  destruct (ensure_path_lookup d p) as (i & E & _). rewrite E.
  rewrite lookup_insert. case_decide.
  - intros [= <-]. apply insert_non_empty.
  - unfold ensure_path. destruct (negb _); [|apply Hd].
    rewrite lookup_insert_ne by done. apply Hd.
Qed.

End table_lemmas.

(** *** The methods, case by case *)

Ltac run_monad :=
  unfold mbind, mret, M_bind, M_ret, lift, get_status_attr, set_status_attr,
    get_hashes_table, set_hashes_table; simpl.

Lemma try_pop_table c t p m :
  hashes c = HTable t →
  _try_pop_consumer p m c =
    (mkCache (HTable (pop_if truthy_fp t p m)) (pop_if truthy_str (status c) p m)
       (cachefile_path c), Returned tt).
Proof.
  destruct c as [h st cp]; simpl; intros ->.
  unfold _try_pop_consumer, pop_if. run_monad.
  destruct (entry_truthy truthy_str st p m); simpl;
    destruct (entry_truthy truthy_fp t p m); reflexivity.
Qed.

Lemma try_pop_repr c t p m :
  hashes c = HRepr t →
  _try_pop_consumer p m c =
    (mkCache (HRepr t) (pop_if truthy_str (status c) p m) (cachefile_path c),
     Raised (AttributeError "str" "get")).
Proof.
  destruct c as [h st cp]; simpl; intros ->.
  unfold _try_pop_consumer, pop_if. run_monad.
  destruct (entry_truthy truthy_str st p m); reflexivity.
Qed.

Lemma update_absent fs c p m :
  present (fs p) = false →
  update fs p m c =
    match hashes c with
    | HTable t =>
        (mkCache (HTable (pop_if truthy_fp t p m)) (pop_if truthy_str (status c) p m)
           (cachefile_path c), Returned true)
    | HRepr t =>
        (mkCache (HRepr t) (pop_if truthy_str (status c) p m) (cachefile_path c),
         Raised (AttributeError "str" "get"))
    end.
Proof.
  unfold present. intros Hp. unfold update. rewrite Hp. simpl.
  unfold mbind at 1, M_bind at 1.
  destruct (hashes c) as [t|t] eqn:E.
  - by rewrite (try_pop_table c t).
  - by rewrite (try_pop_repr c t).
Qed.

Lemma update_present fs c p m :
  present (fs p) = true →
  update fs p m c =
    match compute_hash p (fs p), hashes c with
    | Raised e, _ => (c, Raised e)
    | Returned h, HRepr _ => (c, Raised (AttributeError "str" "get"))
    | Returned h, HTable t =>
        if bool_decide (Some h ≠ lookup2 t p m) then
          (mkCache (HTable (push t p m h)) (push (status c) p m "changed")
             (cachefile_path c), Returned true)
        else
          (mkCache (HTable t) (push (status c) p m "same") (cachefile_path c),
           Returned false)
    end.
Proof.
  unfold present. intros Hp. unfold update. rewrite Hp. simpl.
  destruct c as [h st cp]. run_monad.
  destruct (compute_hash p (fs p)) as [fp|e]; [|done].
  destruct h as [t|t]; [|done].
  unfold lookup2. destruct (bool_decide _); reflexivity.
Qed.

(** [update] keeps a table a table. *)
Lemma update_keeps_table fs c t p m :
  hashes c = HTable t → ∃ t', hashes (fst (update fs p m c)) = HTable t'.
Proof.
  intros E. destruct (present (fs p)) eqn:Hp.
  - rewrite update_present by done. rewrite E.
    destruct (compute_hash p (fs p)); simpl; [|eauto].
    destruct (bool_decide _); simpl; eauto.
  - rewrite update_absent by done. rewrite E. simpl. eauto.
Qed.

(** [get_status] in terms of what is recorded. *)
Lemma get_status_stored c p m :
  get_status c p m =
    match stored_status c p m with
    | Some st => if truthy_str st then st else "untracked"
    | None => "untracked"
    end.
Proof.
  unfold get_status, stored_status, lookup2.
  destruct (status c !! p) as [inner|]; simpl; [|done].
  destruct (truthy_dict inner) eqn:T; simpl.
  - destruct (inner !! m) as [st|]; [|done]. by destruct (truthy_str st).
  - apply truthy_dict_false in T as ->. by rewrite lookup_empty.
Qed.

(** An [update] for one pair leaves every other pair as it was. *)
Lemma update_frame fs c p m q k :
  (p, m) ≠ (q, k) →
  stored_status (fst (update fs p m c)) q k = stored_status c q k ∧
  stored_hash (fst (update fs p m c)) q k = stored_hash c q k.
Proof.
  intros Hne. unfold stored_status, stored_hash.
  destruct (present (fs p)) eqn:Hp.
  - rewrite update_present by done.
    destruct (compute_hash p (fs p)) as [h|e]; [|done].
    destruct (hashes c) as [t|t] eqn:E; simpl; [|by rewrite E].
    destruct (bool_decide _); simpl; rewrite ?E;
      rewrite ?lookup2_push_ne by done; done.
  - rewrite update_absent by done.
    destruct (hashes c) as [t|t] eqn:E; simpl;
      rewrite ?lookup2_pop_if_ne by done; done.
Qed.

Lemma run_calls_frame ks c q k :
  Forall (λ x, (call_path x, call_consumer x) ≠ (q, k)) ks →
  stored_status (run_calls ks c) q k = stored_status c q k ∧
  stored_hash (run_calls ks c) q k = stored_hash c q k.
Proof.
  intros H. revert c. induction H as [|x ks Hx _ IH]; intros c; [done|].
  simpl. destruct (IH (run_call x c)) as [-> ->].
  by apply update_frame.
Qed.

(** [update] keeps both tables free of empty consumer tables. *)
Lemma update_no_empty fs c t p m :
  hashes c = HTable t → no_empty t → no_empty (status c) →
  ∃ t', hashes (fst (update fs p m c)) = HTable t' ∧ no_empty t' ∧
        no_empty (status (fst (update fs p m c))).
Proof.
  intros E Ht Hs. destruct (present (fs p)) eqn:Hp.
  - rewrite update_present by done. rewrite E.
    destruct (compute_hash p (fs p)); simpl; [|by eauto].
    destruct (bool_decide _); simpl.
    + eexists; split; [done|]. split; [by apply no_empty_push|by apply no_empty_push].
    + eexists; split; [done|]. split; [done|by apply no_empty_push].
  - rewrite update_absent by done. rewrite E. simpl.
    eexists; split; [done|]. split; by apply no_empty_pop_if.
Qed.

Lemma present_of_dir n : is_dir n = true → present n = true.
Proof. unfold present. intros ->. apply orb_true_r. Qed.

Lemma compute_hash_dir p n : is_dir n = true → compute_hash p n = Returned (FInt 0).
Proof. unfold compute_hash. by intros ->. Qed.

(** Once [0] is stored for a pair, it stays as long as every [update] of the
    pair finds a directory. *)
Lemma directory_hash_stays ks c t p m :
  hashes c = HTable t → lookup2 t p m = Some (FInt 0) →
  Forall (λ x, (call_path x, call_consumer x) = (p, m) → is_dir (call_fs x p) = true) ks →
  ∃ t', hashes (run_calls ks c) = HTable t' ∧ lookup2 t' p m = Some (FInt 0).
Proof.
  intros E L H. revert c t E L.
  induction H as [|[fs q k] ks Hx _ IH]; intros c t E L; [by eauto|].
  simpl in *.
  destruct (update_keeps_table fs c t q k E) as [t' E'].
  apply (IH (run_call (mkCall fs q k) c) t'); unfold run_call; simpl; [done|].
  destruct (decide ((q, k) = (p, m))) as [[= -> ->]|Hne].
  - specialize (Hx eq_refl). revert E'.
    rewrite update_present by by apply present_of_dir.
    rewrite compute_hash_dir, E by done.
    rewrite bool_decide_eq_false_2 by (rewrite L; auto).
    simpl. by intros [= <-].
  - destruct (update_frame fs c q k p m Hne) as [_ Hh].
    unfold stored_hash in Hh. by rewrite E', E, L in Hh.
Qed.

(** ** The claims about the cache *)

(** Where [update] does classify: for a path that is or resolves to a
    regular file or a directory, and a cache holding a table, [update]
    computes the fingerprint ([0] for a directory, the text of the Adler-32
    sum of the content otherwise) and returns; it returns true exactly when
    the stored fingerprint of the pair is not that one (a missing record
    included), and then records ['changed'] and stores the fingerprint;
    otherwise it returns false, records ['same'] and leaves the fingerprints
    alone.  Hence after a first [update] that found a directory, every later
    [update] of the pair that still finds a directory returns false. *)
Theorem update_classifies fs c t p m :
  hashes c = HTable t →
  is_file (fs p) || is_dir (fs p) = true →
  let c' := fst (update fs p m c) in
  (∃ h b,
      compute_hash p (fs p) = Returned h ∧
      (is_dir (fs p) = true → h = FInt 0) ∧
      (∀ l bs, fs p = Regular l bs → h = FStr (pretty (zlib_adler32 bs))) ∧
      snd (update fs p m c) = Returned b ∧
      (b = true ↔ stored_hash c p m ≠ Some h) ∧
      (b = true → stored_status c' p m = Some "changed" ∧ stored_hash c' p m = Some h) ∧
      (b = false → stored_status c' p m = Some "same" ∧ hashes c' = hashes c)) ∧
  (is_dir (fs p) = true →
   ∀ ks fs',
     Forall (λ x, (call_path x, call_consumer x) = (p, m) →
                  is_dir (call_fs x p) = true) ks →
     is_dir (fs' p) = true →
     snd (update fs' p m (run_calls ks c')) = Returned false).
Proof.
  intros E Hex c'.
  assert (present (fs p) = true) as Hp.
  { unfold present. destruct (is_file (fs p)), (is_symlink (fs p)), (is_dir (fs p)); done. }
  assert (∃ h, compute_hash p (fs p) = Returned h ∧
               (is_dir (fs p) = true → h = FInt 0) ∧
               (∀ l bs, fs p = Regular l bs → h = FStr (pretty (zlib_adler32 bs))))
    as (h & Hh & Hd & Hr).
  { unfold compute_hash. destruct (fs p) as [|l bs|l|]; try done; simpl.
    - eexists; split; [done|]. split; [done|]. by intros ?? [= <- <-].
    - eexists; split; [done|]. split; [done|]. done. }
  assert (update fs p m c =
          if bool_decide (Some h ≠ lookup2 t p m) then
            (mkCache (HTable (push t p m h)) (push (status c) p m "changed")
               (cachefile_path c), Returned true)
          else (mkCache (HTable t) (push (status c) p m "same") (cachefile_path c),
                Returned false)) as Hu.
  { rewrite update_present by done. by rewrite Hh, E. }
  split.
  - exists h. subst c'. rewrite Hu. unfold stored_hash, stored_status. rewrite E.
    case_bool_decide as Hb; simpl.
    + exists true. rewrite !lookup2_push_eq. by split_and!.
    + exists false. rewrite lookup2_push_eq. by split_and!.
  - intros Hdir ks fs' Hks Hdir'.
    specialize (Hd Hdir). subst h.
    assert (∃ t1, hashes c' = HTable t1 ∧ lookup2 t1 p m = Some (FInt 0))
      as (t1 & E1 & L1).
    { subst c'. rewrite Hu. case_bool_decide as Hb; simpl.
      - eexists; split; [done|]. apply lookup2_push_eq.
      - exists t. split; [done|]. by symmetry. }
    destruct (directory_hash_stays ks c' t1 p m E1 L1 Hks) as (t2 & E2 & L2).
    rewrite update_present by by apply present_of_dir.
    rewrite compute_hash_dir, E2 by done.
    rewrite bool_decide_eq_false_2 by (rewrite L2; auto). done.
Qed.

Lemma update_classifies_witness :
  hashes fresh_cache = HTable ∅ ∧
  is_file (fs_project "build") || is_dir (fs_project "build") = true ∧
  snd (update fs_project "build" "synth" (run_calls [] tracked_dir)) = Returned false.
Proof.
  split; [reflexivity|]. split; [reflexivity|].
  pose proof (update_classifies fs_project fresh_cache ∅ "build" "synth"
                eq_refl eq_refl) as [_ H].
  apply H; [reflexivity|constructor|reflexivity].
Defined.

(** The same on a file: the first [update] stores the text of the Adler-32
    sum of its three bytes. *)
Lemma update_classifies_file :
  stored_hash (fst (update fs_project "top.v" "synth" fresh_cache)) "top.v" "synth"
    = Some (FStr "42729793") ∧
  snd (update fs_project "top.v" "synth" fresh_cache) = Returned true.
Proof.
  destruct (update_classifies fs_project fresh_cache ∅ "top.v" "synth" eq_refl eq_refl)
    as [(h & b & _ & _ & Hr & Hb & Hiff & Htrue & _) _].
  specialize (Hr false [x6d; x6f; x64]%byte eq_refl). subst h.
  assert (b = true) as -> by (apply Hiff; discriminate).
  destruct (Htrue eq_refl) as [_ Hs]. split; [exact Hs|exact Hb].
Qed.

(** C4, at the inputs where the code departs from it: paths that exist, on
    which [update] raises instead of classifying.  On a cache constructed
    from the file that [save] wrote, [self.hashes] is a [str] and every
    [update] of an existing file or directory raises [AttributeError]; and a
    dangling symlink passes the test of existence, after which opening it
    raises [FileNotFoundError]. *)
Theorem update_raises_on_existing_path :
  init_outcome (save ∅ tracked_file) ".symbicache"
    = Returned (init (save ∅ tracked_file) ".symbicache") ∧
  is_file (fs_project "top.v") = true ∧
  update fs_project "top.v" "synth" (init (save ∅ tracked_file) ".symbicache")
    = (init (save ∅ tracked_file) ".symbicache", Raised (AttributeError "str" "get")) ∧
  is_dir (fs_project "build") = true ∧
  update fs_project "build" "synth" (init (save ∅ tracked_file) ".symbicache")
    = (init (save ∅ tracked_file) ".symbicache", Raised (AttributeError "str" "get")) ∧
  present DanglingLink = true ∧
  update (λ _, DanglingLink) "link" "synth" fresh_cache
    = (fresh_cache, Raised (FileNotFoundError "link")).
Proof. vm_compute. by split_and!. Qed.

(** What stays of a pair after [pop_if]: nothing, or a falsy value that the
    test of [_try_pop_consumer] did not see. *)
Lemma lookup2_pop_if_eq {A} (tr : A → bool) (d : table A) p m v :
  lookup2 (pop_if tr d p m) p m = Some v → tr v = false ∧ lookup2 d p m = Some v.
Proof.
  unfold pop_if. destruct (entry_truthy tr d p m) eqn:T.
  - by rewrite lookup2_pop_entry_eq.
  - intros L. split; [|done]. revert T L. unfold entry_truthy, lookup2.
    destruct (d !! p) as [inner|]; simpl; [|done].
    intros T L. rewrite L in T. simpl in T.
    assert (truthy_dict inner = true) as Ht.
    { apply truthy_dict_true. intros ->. by rewrite lookup_empty in L. }
    by rewrite Ht in T.
Qed.

Lemma lookup2_pop_if_truthy {A} (tr : A → bool) (d : table A) p m v :
  lookup2 d p m = Some v → tr v = true → lookup2 (pop_if tr d p m) p m = None.
Proof.
  intros L T. destruct (lookup2 (pop_if tr d p m) p m) as [w|] eqn:E; [|done].
  apply lookup2_pop_if_eq in E as [Hw E]. congruence.
Qed.

(** For a path that is gone, a cache holding a table drops the status and
    the fingerprint of the pair when they are truthy, and returns true. *)
Lemma update_absent_drops fs c t p m :
  hashes c = HTable t → present (fs p) = false →
  snd (update fs p m c) = Returned true ∧
  (∀ st, stored_status c p m = Some st → truthy_str st = true →
         stored_status (fst (update fs p m c)) p m = None) ∧
  (∀ h, stored_hash c p m = Some h → truthy_fp h = true →
        stored_hash (fst (update fs p m c)) p m = None).
Proof.
  intros E Hp. rewrite update_absent by done. rewrite E. simpl.
  unfold stored_status, stored_hash. rewrite E. simpl.
  split_and!; [done| |]; intros; by eapply lookup2_pop_if_truthy.
Qed.

(** C5, at the input where the code departs from it: a directory tracked by
    one consumer, then removed.  [update] returns true and drops the status
    of the pair, but the fingerprint [0] of the pair stays in the table:
    [_try_pop_consumer] tests the stored fingerprint for truth, and the
    integer [0] is falsy. *)
Theorem vanished_directory_keeps_hash :
  stored_hash tracked_dir "build" "synth" = Some (FInt 0) ∧
  stored_status tracked_dir "build" "synth" = Some "changed" ∧
  present (fs_empty "build") = false ∧
  snd (update fs_empty "build" "synth" tracked_dir) = Returned true ∧
  stored_status (fst (update fs_empty "build" "synth" tracked_dir)) "build" "synth" = None ∧
  stored_hash (fst (update fs_empty "build" "synth" tracked_dir)) "build" "synth"
    = Some (FInt 0).
Proof. vm_compute. by split_and!. Qed.

(** C8, at the input where the code departs from it: a directory tracked by
    two consumers, then removed, with both consumers dropped by [update].
    The status table is empty, but the path is still a key of the fingerprint
    table, with both consumers under it. *)
Theorem pruned_directory_stays_in_hashes :
  status (run_calls [mkCall fs_empty "build" "synth"; mkCall fs_empty "build" "pack"]
            tracked_dir2) = ∅ ∧
  hashes (run_calls [mkCall fs_empty "build" "synth"; mkCall fs_empty "build" "pack"]
            tracked_dir2)
    = HTable {[ "build" := {[ "synth" := FInt 0; "pack" := FInt 0 ]} ]}.
Proof. vm_compute. by split. Qed.

(** C6: [get_status] is total; for a pair that no [update] call was made on
    since the cache was constructed it returns ['untracked'], and after an
    [update] call on the pair that found the path and returned [b], it
    returns what that call recorded, ['changed'] if [b] and ['same'] if not,
    whatever calls on other pairs came before or after. *)
Theorem get_status_follows_update d cachefile ks p m :
  Forall (λ x, (call_path x, call_consumer x) ≠ (p, m)) ks →
  get_status (run_calls ks (init d cachefile)) p m = "untracked" ∧
  ∀ fs c b,
    present (fs p) = true →
    snd (update fs p m c) = Returned b →
    get_status (run_calls ks (fst (update fs p m c))) p m
      = if b then "changed" else "same".
Proof.
  intros Hks. split.
  - rewrite get_status_stored. destruct (run_calls_frame ks (init d cachefile) p m Hks) as [-> _].
    unfold stored_status, lookup2, init, load.
    by destruct (d !! _) as [[]|]; simpl; rewrite lookup_empty.
  - intros fs c b Hp Hb. rewrite get_status_stored.
    destruct (run_calls_frame ks (fst (update fs p m c)) p m Hks) as [-> _].
    revert Hb. rewrite update_present by done. unfold stored_status.
    destruct (compute_hash p (fs p)) as [h|e]; [|done].
    destruct (hashes c) as [t|t]; [|done].
    case_bool_decide; simpl; intros [= <-]; by rewrite lookup2_push_eq.
Qed.

Lemma get_status_follows_update_witness :
  Forall (λ x, (call_path x, call_consumer x) ≠ ("top.v", "synth"))
    [mkCall fs_project "build" "synth"; mkCall fs_empty "top.v" "pack"] ∧
  get_status (run_calls [mkCall fs_project "build" "synth"; mkCall fs_empty "top.v" "pack"]
                (init ∅ ".symbicache")) "top.v" "synth" = "untracked".
Proof.
  assert (Forall (λ x, (call_path x, call_consumer x) ≠ ("top.v", "synth"))
            [mkCall fs_project "build" "synth"; mkCall fs_empty "top.v" "pack"]) as H.
  { repeat constructor; simpl; discriminate. }
  split; [exact H|].
  exact (proj1 (get_status_follows_update ∅ ".symbicache" _ "top.v" "synth" H)).
Defined.

(** C7: an [update] by consumer [a] leaves the fingerprint and the status
    stored for another consumer [b] of the same path as they were, whatever
    is found at the path and whatever the call returns or raises. *)
Theorem update_other_consumer fs c p a b :
  a ≠ b →
  stored_hash (fst (update fs p a c)) p b = stored_hash c p b ∧
  stored_status (fst (update fs p a c)) p b = stored_status c p b ∧
  get_status (fst (update fs p a c)) p b = get_status c p b.
Proof.
  intros Hab. assert ((p, a) ≠ (p, b)) as Hne by congruence.
  destruct (update_frame fs c p a p b Hne) as [Hs Hh].
  rewrite !get_status_stored, Hs, Hh. done.
Qed.

Lemma update_other_consumer_witness :
  "pack" ≠ "synth" ∧
  stored_hash (fst (update fs_empty "build" "pack" tracked_dir)) "build" "synth"
    = stored_hash tracked_dir "build" "synth".
Proof.
  assert ("pack" ≠ "synth") as H by discriminate.
  split; [exact H|].
  exact (proj1 (update_other_consumer fs_empty tracked_dir "build" "pack" "synth" H)).
Defined.

(** C10: for a path that is neither a file, a symlink nor a directory,
    [update] on a cache holding a table returns true, it never returns
    false, and afterwards [get_status] of the pair is ['untracked']: no
    ['changed'] is recorded for it. *)
Theorem vanished_path_untracked fs c p m :
  present (fs p) = false →
  get_status (fst (update fs p m c)) p m = "untracked" ∧
  stored_status (fst (update fs p m c)) p m ≠ Some "changed" ∧
  (∀ t, hashes c = HTable t → snd (update fs p m c) = Returned true) ∧
  (∀ b, snd (update fs p m c) = Returned b → b = true).
Proof.
  intros Hp. rewrite get_status_stored, update_absent by done.
  assert (∀ st, lookup2 (pop_if truthy_str (status c) p m) p m = Some st →
                truthy_str st = false) as Hst.
  { intros st L. by apply lookup2_pop_if_eq in L as [? _]. }
  unfold stored_status.
  destruct (hashes c) as [t|t]; simpl.
  - split_and!; [|intros L; by apply Hst in L| done | by intros b [= <-]].
    destruct (lookup2 _ p m) as [st|] eqn:L; [|done]. by rewrite (Hst st).
  - split_and!; [|intros L; by apply Hst in L| done | done].
    destruct (lookup2 _ p m) as [st|] eqn:L; [|done]. by rewrite (Hst st).
Qed.

Lemma vanished_path_untracked_witness :
  present (fs_empty "top.v") = false ∧
  get_status (fst (update fs_empty "top.v" "synth" tracked_file)) "top.v" "synth" = "untracked".
Proof.
  split; [reflexivity|].
  exact (proj1 (vanished_path_untracked fs_empty tracked_file "top.v" "synth" eq_refl)).
Defined.

(** C1, refuted as stated: a tracked file with status ['changed'] and a
    fingerprint; after [save], a cache constructed from the file has no
    status and no fingerprint for the pair, and the saving object itself,
    after [load], has no fingerprint for it either. *)
Lemma save_load_loses_entries :
  stored_status tracked_file "top.v" "synth" = Some "changed" ∧
  stored_hash tracked_file "top.v" "synth"
    = Some (FStr (pretty (zlib_adler32 [x6d; x6f; x64]%byte))) ∧
  stored_status (init (save ∅ tracked_file) ".symbicache") "top.v" "synth" = None ∧
  get_status (init (save ∅ tracked_file) ".symbicache") "top.v" "synth" = "untracked" ∧
  stored_hash (init (save ∅ tracked_file) ".symbicache") "top.v" "synth" = None ∧
  stored_hash (load (save ∅ tracked_file) tracked_file) "top.v" "synth" = None.
Proof. vm_compute. by split_and!. Qed.

(** C1, amended: the cache file holds no status.  [save] writes a file that
    does not depend on the statuses, and [load] takes what [json_load]
    returns from it, without falling back to the empty table; [save] then
    [load] on one object leaves its statuses as they were, and a cache
    constructed from the saved file reports ['untracked'] for every pair. *)
Theorem save_load_statuses d c :
  (∃ v, save d c !! cachefile_path c = Some (JsonOf v) ∧
        hashes (load (save d c) c) = v) ∧
  (∀ st, save d (mkCache (hashes c) st (cachefile_path c)) = save d c) ∧
  status (load (save d c) c) = status c ∧
  (∀ p m, get_status (init (save d c) (cachefile_path c)) p m = "untracked").
Proof.
  unfold save, init, load. simpl. rewrite !lookup_insert_eq. simpl.
  split_and!; [by eexists|done|done|].
  intros p m. unfold get_status. simpl. by rewrite lookup_empty.
Qed.

End CacheFacts.

(** ** Facts about the invocation context *)

Module ModuleFacts.
Import ModulePy.

Lemma call_fatal_raises dep stage_name :
  call_fatal dep stage_name = Raised (NameError "fatal").
Proof. reflexivity. Qed.

(** The [for] loop over the resolved explicit outputs builds that mapping. *)
Lemma namespace_of_items (m : gmap string value) :
  map_fold (λ id v obj, setattr obj id v) ∅ m = m.
Proof.
  apply (map_fold_weak_ind (λ r m, r = m)); [done|].
  intros i x m' r _ ->. done.
Qed.

Section with_decoder.
Variable decompose_depname : string → string * qualifier.

Lemma getreqmaybe_raises stage_name env obj deps deps_cfg :
  Exists (λ dep, unmet decompose_depname deps_cfg dep = true) deps →
  _getreqmaybe decompose_depname stage_name env obj deps deps_cfg
    = Raised (NameError "fatal").
Proof.
  intros H. revert obj. induction deps as [|dep deps IH]; intros obj.
  - by apply Exists_nil in H.
  - simpl. destruct (unmet decompose_depname deps_cfg dep) eqn:U.
    + unfold unmet in U. destruct (decompose_depname dep) as [id spec]. simpl in U.
      by rewrite U.
    + apply Exists_cons in H as [H|H]; [congruence|].
      unfold unmet in U. destruct (decompose_depname dep) as [id spec]. simpl in U.
      rewrite U. simpl. by apply IH.
Qed.

Lemma getreqmaybe_returns stage_name env obj deps deps_cfg :
  Forall (λ dep, unmet decompose_depname deps_cfg dep = false) deps →
  ∃ obj', _getreqmaybe decompose_depname stage_name env obj deps deps_cfg = Returned obj'.
Proof.
  intros H. revert obj. induction H as [|dep deps U _ IH]; intros obj; [by eexists|].
  simpl. unfold unmet in U. destruct (decompose_depname dep) as [id spec]. simpl in U.
  rewrite U. simpl. apply IH.
Qed.

(** Every declared name is bound, to its resolved value; the other
    attributes of the object stay. *)
Lemma getreqmaybe_lookup stage_name env obj deps deps_cfg obj' :
  _getreqmaybe decompose_depname stage_name env obj deps deps_cfg = Returned obj' →
  ∀ id, obj' !! id =
    if bool_decide (id ∈ (λ dep, (decompose_depname dep).1) <$> deps)
    then Some (resolve env (dict_get deps_cfg id))
    else obj !! id.
Proof.
  revert obj. induction deps as [|dep deps IH]; intros obj; simpl.
  - by intros [= ->] id.
  - destruct (decompose_depname dep) as [k spec] eqn:D. simpl.
    destruct (is_none (dict_get deps_cfg k) && is_req spec); [done|]. simpl.
    intros H id. rewrite (IH _ H id). unfold setattr.
    destruct (decide (id = k)) as [->|Hne].
    + rewrite (bool_decide_eq_true_2 (k ∈ k :: _)) by apply list_elem_of_here.
      case_bool_decide; [done|apply lookup_insert_eq].
    + rewrite lookup_insert_ne by done.
      apply (f_equal (λ b : bool, if b then _ else _)).
      apply bool_decide_ext. rewrite elem_of_cons.
      split; [by right|by intros [?|?]].
Qed.

Lemma init_inv m cfg env sh bn ctx :
  ModuleContext_init decompose_depname m cfg env sh bn = Returned ctx →
  _getreqmaybe decompose_depname (name m) env ∅ (mod_takes m) (cfg_takes cfg)
    = Returned (takes ctx) ∧
  _getreqmaybe decompose_depname (name m) env ∅ (mod_values m) (cfg_values cfg)
    = Returned (values ctx) ∧
  produces ctx = resolve_dict env (cfg_produces cfg) ∧
  _getreqmaybe decompose_depname (name m) env ∅ (mod_produces m)
    (resolve_dict env (cfg_produces cfg) ∪ map_io m
       (partial_context m env sh bn (takes ctx) (values ctx) (produces ctx)))
    = Returned (outputs ctx).
Proof.
  unfold ModuleContext_init. rewrite namespace_of_items.
  destruct (_getreqmaybe _ _ _ ∅ (mod_takes m) _) as [tk|]; [|done]. simpl.
  destruct (_getreqmaybe _ _ _ ∅ (mod_values m) _) as [vl|]; [|done]. simpl.
  destruct (_getreqmaybe _ _ _ ∅ (mod_produces m) _) as [out|] eqn:O; [|done]. simpl.
  intros [= <-]. simpl. done.
Qed.

(** A missing required input stops the construction at the first loop,
    whatever [map_io] the module has: it is not called. *)
Lemma init_missing_required_input m cfg env sh bn :
  Exists (λ dep, unmet decompose_depname (cfg_takes cfg) dep = true) (mod_takes m) →
  ModuleContext_init decompose_depname m cfg env sh bn = Raised (NameError "fatal").
Proof.
  intros H. unfold ModuleContext_init.
  rewrite (getreqmaybe_raises (name m) env ∅ _ _ H). reflexivity.
Qed.

(** The loop either binds every name or stops on the unbound [fatal]. *)
Lemma getreqmaybe_outcome stage_name env obj deps deps_cfg :
  (Exists (λ dep, unmet decompose_depname deps_cfg dep = true) deps ∧
   _getreqmaybe decompose_depname stage_name env obj deps deps_cfg
     = Raised (NameError "fatal")) ∨
  (Forall (λ dep, unmet decompose_depname deps_cfg dep = false) deps ∧
   ∃ obj', _getreqmaybe decompose_depname stage_name env obj deps deps_cfg = Returned obj').
Proof.
  destruct (decide (Exists (λ dep, unmet decompose_depname deps_cfg dep = true) deps))
    as [H|H].
  - left. split; [done|]. by apply getreqmaybe_raises.
  - right. apply not_Exists_Forall in H; [|intros dep; apply _].
    assert (Forall (λ dep, unmet decompose_depname deps_cfg dep = false) deps) as H'.
    { eapply Forall_impl; [exact H|]. simpl. intros dep. by destruct (unmet _ _ dep). }
    split; [done|]. by apply getreqmaybe_returns.
Qed.

(** A required value or a required output with nothing to bind stops the
    construction in the same way. *)
Lemma init_missing_required m cfg env sh bn :
  Exists (λ dep, unmet decompose_depname (cfg_values cfg) dep = true) (mod_values m) ∨
  (∀ ctx, Exists (λ dep, unmet decompose_depname
                    (resolve_dict env (cfg_produces cfg) ∪ map_io m ctx) dep = true)
            (mod_produces m)) →
  ModuleContext_init decompose_depname m cfg env sh bn = Raised (NameError "fatal").
Proof.
  intros H. unfold ModuleContext_init.
  destruct (getreqmaybe_outcome (name m) env ∅ (mod_takes m) (cfg_takes cfg))
    as [[_ ->]|[_ [tk ->]]]; [done|]. simpl.
  destruct (getreqmaybe_outcome (name m) env ∅ (mod_values m) (cfg_values cfg))
    as [[_ ->]|[Hv [vl ->]]]; [done|]. simpl.
  destruct H as [H|H].
  - apply Exists_exists in H as (dep & Hin & U).
    rewrite Forall_forall in Hv. specialize (Hv dep Hin). congruence.
  - by rewrite (getreqmaybe_raises (name m) env ∅ _ _ (H _)).
Qed.

(** [is_output_explicit] on a constructed context, by the explicit
    mapping of the configuration. *)
Lemma is_output_explicit_constructed m cfg env sh bn ctx id :
  ModuleContext_init decompose_depname m cfg env sh bn = Returned ctx →
  is_output_explicit ctx id =
    match cfg_produces cfg !! id with
    | Some v => Returned (negb (is_none (resolve env v)))
    | None => Raised (AttributeError "types.SimpleNamespace" id)
    end.
Proof.
  intros (_ & _ & Hp & _)%init_inv. unfold is_output_explicit, getattr.
  rewrite Hp. unfold resolve_dict. rewrite lookup_fmap.
  by destruct (cfg_produces cfg !! id).
Qed.

(** C3, amended: when the construction returns, a declared input or value
    with qualifier [maybe] is always bound: to the resolution of [None] when
    the configuration has no entry for it, to the resolution of its value
    when it has one. *)
Theorem optional_name_is_bound m cfg env sh bn ctx dep id :
  ModuleContext_init decompose_depname m cfg env sh bn = Returned ctx →
  decompose_depname dep = (id, maybe) →
  (dep ∈ mod_takes m →
     (cfg_takes cfg !! id = None → takes ctx !! id = Some (resolve env VNone)) ∧
     (∀ v, cfg_takes cfg !! id = Some v → takes ctx !! id = Some (resolve env v))) ∧
  (dep ∈ mod_values m →
     (cfg_values cfg !! id = None → values ctx !! id = Some (resolve env VNone)) ∧
     (∀ v, cfg_values cfg !! id = Some v → values ctx !! id = Some (resolve env v))).
Proof.
  intros (Ht & Hv & _)%init_inv D.
  pose proof (getreqmaybe_lookup _ _ _ _ _ _ Ht id) as Lt.
  pose proof (getreqmaybe_lookup _ _ _ _ _ _ Hv id) as Lv.
  split; intros Hin.
  - rewrite bool_decide_eq_true_2 in Lt.
    + rewrite Lt. unfold dict_get. split; [by intros ->|by intros v ->].
    + apply list_elem_of_fmap. exists dep. by rewrite D.
  - rewrite bool_decide_eq_true_2 in Lv.
    + rewrite Lv. unfold dict_get. split; [by intros ->|by intros v ->].
    + apply list_elem_of_fmap. exists dep. by rewrite D.
Qed.

End with_decoder.

Lemma optional_name_is_bound_witness :
  synth_context ["x?"] [] [] = Returned context_x_none ∧
  decompose_suffix "x?" = ("x", maybe) ∧
  "x?" ∈ ["x?"] ∧
  takes context_x_none !! "x" = Some (resolve plain_env VNone).
Proof.
  assert ("x?" ∈ ["x?"]) as Hin by apply list_elem_of_here.
  split; [reflexivity|]. split; [reflexivity|]. split; [exact Hin|].
  exact (proj1 (proj1 (optional_name_is_bound decompose_suffix
                         (stage "synth" ["x?"] [] []) empty_config plain_env
                         "share" "bin" context_x_none "x?" "x" eq_refl eq_refl)
                  Hin) eq_refl).
Defined.

(** C3, refuted as stated: the input [x?] is optional and the configuration
    has no entry for [x]; the constructed context has the attribute [x] all
    the same, bound to [None]. *)
Lemma optional_absent_input_gets_attribute :
  decompose_suffix "x?" = ("x", maybe) ∧
  cfg_takes empty_config !! "x" = None ∧
  synth_context ["x?"] [] [] = Returned context_x_none ∧
  takes context_x_none !! "x" = Some VNone.
Proof. by split_and!. Qed.

(** C2, at the input where the code departs from it: the input [eblif] is
    required and the configuration has no entry for it.  The construction
    stops, but with [NameError]: [fatal] is not a name of [module.py], so the
    message naming the dependency and the stage is never built. *)
Theorem missing_required_input_raises :
  decompose_suffix "eblif" = ("eblif", req) ∧
  cfg_takes empty_config !! "eblif" = None ∧
  synth_context ["eblif"] [] [] = Raised (NameError "fatal") ∧
  synth_context ["eblif"] [] [] ≠ Raised (Fatal (-1) (missing_message "eblif" "synth")).
Proof. by split_and!. Qed.

(** C9, at the input where the code departs from it: the output [log!] is
    declared on-demand and the configuration gives no explicit path for it.
    The context is constructed, and [is_output_explicit('log')] raises
    [AttributeError] where the answer is false. *)
Theorem is_output_explicit_raises :
  decompose_suffix "log!" = ("log", demand) ∧
  cfg_produces empty_config !! "log" = None ∧
  synth_context [] ["log!"] []
    = Returned (mkContext "share" "bin" ∅ ∅ {[ "log" := VNone ]} ∅ plain_env "synth") ∧
  is_output_explicit
    (mkContext "share" "bin" ∅ ∅ {[ "log" := VNone ]} ∅ plain_env "synth") "log"
    = Raised (AttributeError "types.SimpleNamespace" "log").
Proof. by split_and!. Qed.

End ModuleFacts.

(** ** Further facts about the cache *)

Module CacheMore.
Import Cache CacheStates CacheFacts.

(** An invariant of [update] holds after any sequence of calls. *)
Lemma run_calls_ind (P : SymbiCache → Prop) ks c :
  P c → (∀ c fs p m, P c → P (fst (update fs p m c))) → P (run_calls ks c).
Proof.
  intros Hc Hstep. revert c Hc.
  induction ks as [|k ks IH]; intros c Hc; [done|].
  simpl. apply IH. unfold run_call. by apply Hstep.
Qed.

(** What [pop_if] leaves for a pair was there before. *)
Lemma lookup2_pop_if_Some {A} (tr : A → bool) (d : table A) p m q k v :
  lookup2 (pop_if tr d p m) q k = Some v → lookup2 d q k = Some v.
Proof.
  destruct (decide ((p, m) = (q, k))) as [[= <- <-]|Hne].
  - by intros [_ ?]%lookup2_pop_if_eq.
  - by rewrite lookup2_pop_if_ne.
Qed.

Lemma lookup2_push_Some {A} (d : table A) p m (v : A) q k w :
  lookup2 (push d p m v) q k = Some w → w = v ∨ lookup2 d q k = Some w.
Proof.
  destruct (decide ((p, m) = (q, k))) as [[= <- <-]|Hne].
  - rewrite lookup2_push_eq. intros [= <-]. by left.
  - rewrite lookup2_push_ne by done. by right.
Qed.






(** [load] leaves uncaught whatever else goes wrong with the file, and the
    construction ends with that exception. *)
Lemma init_unreadable_raises d cachefile e :
  d !! cachefile = Some (Unreadable e) → init_outcome d cachefile = Raised e.
Proof. unfold init_outcome, load_outcome. simpl. by intros ->. Qed.




(** A falsy entry is not popped. *)
Lemma pop_if_falsy {A} (tr : A → bool) (d : table A) p m v :
  lookup2 d p m = Some v → tr v = false → pop_if tr d p m = d.
Proof.
  unfold pop_if, entry_truthy, lookup2.
  destruct (d !! p) as [inner|]; simpl; [|done].
  intros L F. rewrite L. simpl. by rewrite F, andb_false_r.
Qed.

(** A directory that is removed and created again is reported unchanged to
    a consumer that had tracked it: the fingerprint [0] survives the
    [update] that found the path gone. *)
Theorem recreated_directory_reported_same fs1 fs2 c t p m :
  hashes c = HTable t →
  lookup2 t p m = Some (FInt 0) →
  present (fs1 p) = false →
  is_dir (fs2 p) = true →
  snd (update fs1 p m c) = Returned true ∧
  snd (update fs2 p m (fst (update fs1 p m c))) = Returned false ∧
  get_status (fst (update fs2 p m (fst (update fs1 p m c)))) p m = "same".
Proof.
  intros E L H1 H2. rewrite get_status_stored.
  rewrite (update_absent fs1) by done. rewrite E. simpl. split; [done|].
  rewrite (pop_if_falsy truthy_fp t p m (FInt 0)) by done.
  rewrite update_present by by apply present_of_dir.
  rewrite compute_hash_dir by done. simpl.
  rewrite bool_decide_eq_false_2 by (rewrite L; auto). simpl.
  unfold stored_status. simpl. by rewrite lookup2_push_eq.
Qed.

Lemma recreated_directory_reported_same_witness :
  hashes tracked_dir = HTable {[ "build" := {[ "synth" := FInt 0 ]} ]} ∧
  present (fs_empty "build") = false ∧
  is_dir (fs_project "build") = true ∧
  snd (update fs_project "build" "synth" (fst (update fs_empty "build" "synth" tracked_dir)))
    = Returned false.
Proof.
  split; [reflexivity|]. split; [reflexivity|]. split; [reflexivity|].
  exact (proj1 (proj2 (recreated_directory_reported_same fs_empty fs_project tracked_dir
                         _ "build" "synth" eq_refl eq_refl eq_refl eq_refl))).
Defined.



(** An [update] of one pair leaves every other pair as it was, on another
    path as well as for another consumer. *)
Theorem update_other_pair fs c p m q k :
  (p, m) ≠ (q, k) →
  stored_hash (fst (update fs p m c)) q k = stored_hash c q k ∧
  stored_status (fst (update fs p m c)) q k = stored_status c q k ∧
  get_status (fst (update fs p m c)) q k = get_status c q k.
Proof.
  intros Hne. destruct (update_frame fs c p m q k Hne) as [Hs Hh].
  by rewrite !get_status_stored, Hs, Hh.
Qed.

Lemma update_other_pair_witness :
  ("build", "synth") ≠ ("top.v", "synth") ∧
  stored_hash (fst (update fs_empty "build" "synth" tracked_file)) "top.v" "synth"
    = stored_hash tracked_file "top.v" "synth".
Proof.
  assert (("build", "synth") ≠ ("top.v", "synth")) as H by discriminate.
  split; [exact H|].
  exact (proj1 (update_other_pair fs_empty tracked_file "build" "synth" "top.v" "synth" H)).
Defined.

Lemma sound_update fs c p m : sound c → sound (fst (update fs p m c)).
Proof.
  intros (t & E & Nt & Ns & Hst). unfold sound.
  destruct (present (fs p)) eqn:Hp.
  - rewrite update_present by done. rewrite E.
    destruct (compute_hash p (fs p)) as [h|e]; simpl; [|by eauto 10].
    case_bool_decide as Hb; simpl.
    + eexists. split; [done|]. split_and!; [by apply no_empty_push..|].
      intros q k st L. destruct (decide ((p, m) = (q, k))) as [[= <- <-]|Hne].
      * rewrite lookup2_push_eq in L. injection L as <-.
        rewrite lookup2_push_eq. split; [by left|by eexists].
      * rewrite lookup2_push_ne in L by done. rewrite lookup2_push_ne by done.
        by apply Hst.
    + exists t. split; [done|]. split_and!; [done|by apply no_empty_push|].
      intros q k st L. destruct (decide ((p, m) = (q, k))) as [[= <- <-]|Hne].
      * rewrite lookup2_push_eq in L. injection L as <-.
        split; [by right|]. rewrite <- Hb. by eexists.
      * rewrite lookup2_push_ne in L by done. by apply Hst.
  - rewrite update_absent by done. rewrite E. simpl.
    eexists. split; [done|]. split_and!; [by apply no_empty_pop_if..|].
    intros q k st L. destruct (decide ((p, m) = (q, k))) as [[= <- <-]|Hne].
    + apply lookup2_pop_if_eq in L as [F L].
      apply Hst in L as [[-> | ->] _]; discriminate.
    + rewrite lookup2_pop_if_ne in L by done. rewrite lookup2_pop_if_ne by done.
      by apply Hst.
Qed.

Lemma sound_init d cachefile :
  d !! cachefile = None ∨ d !! cachefile = Some Corrupt → sound (init d cachefile).
Proof.
  intros Hd.
  assert (init d cachefile = mkCache (HTable ∅) ∅ cachefile) as ->.
  { unfold init, load. simpl. by destruct Hd as [-> | ->]. }
  exists ∅. simpl. split_and!; [done|by intros ??; rewrite lookup_empty..|].
  intros p m st. unfold lookup2. by rewrite lookup_empty.
Qed.

(** Started without a readable cache file, the cache keeps both tables
    free of paths with no consumer, through any sequence of [update] calls. *)
Theorem reachable_no_empty_tables d cachefile ks :
  d !! cachefile = None ∨ d !! cachefile = Some Corrupt →
  ∃ t, hashes (run_calls ks (init d cachefile)) = HTable t ∧
       no_empty t ∧ no_empty (status (run_calls ks (init d cachefile))).
Proof.
  intros Hd.
  destruct (run_calls_ind sound ks (init d cachefile)) as (t & E & Nt & Ns & _);
    [by apply sound_init|intros; by apply sound_update|].
  by exists t.
Qed.

Lemma reachable_no_empty_tables_witness :
  (∅ : disk) !! ".symbicache" = None ∧
  ∃ t, hashes (run_calls [mkCall fs_project "build" "synth"; mkCall fs_empty "build" "synth"]
                 (init ∅ ".symbicache")) = HTable t ∧
       no_empty t ∧
       no_empty (status (run_calls [mkCall fs_project "build" "synth";
                                    mkCall fs_empty "build" "synth"]
                           (init ∅ ".symbicache"))).
Proof.
  split; [reflexivity|].
  exact (reachable_no_empty_tables ∅ ".symbicache" _ (or_introl eq_refl)).
Defined.

(** Started without a readable cache file, whenever a status is recorded
    for a pair, a fingerprint is stored for it too. *)
Theorem reachable_status_has_hash d cachefile ks p m st :
  d !! cachefile = None ∨ d !! cachefile = Some Corrupt →
  stored_status (run_calls ks (init d cachefile)) p m = Some st →
  is_Some (stored_hash (run_calls ks (init d cachefile)) p m).
Proof.
  intros Hd.
  destruct (run_calls_ind sound ks (init d cachefile)) as (t & E & _ & _ & H);
    [by apply sound_init|intros; by apply sound_update|].
  unfold stored_status, stored_hash. rewrite E. intros L. by apply H in L as [_ ?].
Qed.

Lemma reachable_status_has_hash_witness :
  (∅ : disk) !! ".symbicache" = None ∧
  stored_status (run_calls [mkCall fs_project "top.v" "synth"] (init ∅ ".symbicache"))
    "top.v" "synth" = Some "changed" ∧
  is_Some (stored_hash (run_calls [mkCall fs_project "top.v" "synth"] (init ∅ ".symbicache"))
             "top.v" "synth").
Proof.
  split; [reflexivity|]. split; [reflexivity|].
  exact (reachable_status_has_hash ∅ ".symbicache" [mkCall fs_project "top.v" "synth"]
           "top.v" "synth" "changed" (or_introl eq_refl) eq_refl).
Defined.

(** The recorded statuses are ['changed'] and ['same'] only. *)
Lemma statuses_update fs c p m :
  (∀ q k st, lookup2 (status c) q k = Some st → st = "changed" ∨ st = "same") →
  ∀ q k st, lookup2 (status (fst (update fs p m c))) q k = Some st →
            st = "changed" ∨ st = "same".
Proof.
  intros H q k st.
  destruct (present (fs p)) eqn:Hp.
  - rewrite update_present by done.
    destruct (compute_hash p (fs p)) as [h|e]; simpl; [|apply H].
    destruct (hashes c) as [t|t]; simpl; [|apply H].
    case_bool_decide; simpl; intros [->|L]%lookup2_push_Some; eauto.
  - rewrite update_absent by done.
    destruct (hashes c) as [t|t]; simpl; intros L%lookup2_pop_if_Some; by eapply H.
Qed.

(** Whatever the cache file holds and whatever calls were made,
    [get_status] answers ['untracked'], ['changed'] or ['same']. *)
Theorem get_status_values d cachefile ks p m :
  get_status (run_calls ks (init d cachefile)) p m ∈ ["untracked"; "changed"; "same"].
Proof.
  rewrite get_status_stored. unfold stored_status.
  assert (∀ q k st, lookup2 (status (run_calls ks (init d cachefile))) q k = Some st →
                    st = "changed" ∨ st = "same") as H.
  { apply (run_calls_ind (λ c, ∀ q k st, lookup2 (status c) q k = Some st →
                                     st = "changed" ∨ st = "same")).
    - intros q k st. unfold init, load, lookup2.
      by destruct (d !! _) as [[]|]; simpl; rewrite lookup_empty.
    - intros. by eapply statuses_update. }
  destruct (lookup2 _ p m) as [st|] eqn:L; [|set_solver].
  apply H in L as [-> | ->]; simpl; set_solver.
Qed.

End CacheMore.

(** ** Further facts about the invocation context *)

Module ModuleMore.
Import ModulePy ModuleMeta ModuleFacts.

Lemma is_Some_if_decide (P : Prop) `{Decision P} {A} (x : A) :
  is_Some (if bool_decide P then Some x else None) ↔ P.
Proof.
  case_bool_decide; split; intros H1; done.
Qed.

Section with_decoder.
Variable decompose_depname : string → string * qualifier.

(** A constructed context has an attribute for each declared name and for
    no other: entries of the configuration for undeclared inputs or values
    are ignored, while every explicit output path, declared or not, is an
    attribute of [produces]. *)
Theorem context_binds_declared_names m cfg env sh bn ctx id :
  ModuleContext_init decompose_depname m cfg env sh bn = Returned ctx →
  (is_Some (takes ctx !! id) ↔ id ∈ bare_names decompose_depname (mod_takes m)) ∧
  (is_Some (values ctx !! id) ↔ id ∈ bare_names decompose_depname (mod_values m)) ∧
  (is_Some (outputs ctx !! id) ↔ id ∈ bare_names decompose_depname (mod_produces m)) ∧
  produces ctx !! id = resolve env <$> cfg_produces cfg !! id.
Proof.
  intros (Ht & Hv & Hp & Ho)%init_inv.
  pose proof (getreqmaybe_lookup _ _ _ _ _ _ _ Ht id) as Lt.
  pose proof (getreqmaybe_lookup _ _ _ _ _ _ _ Hv id) as Lv.
  pose proof (getreqmaybe_lookup _ _ _ _ _ _ _ Ho id) as Lo.
  rewrite Lt, Lv, Lo, Hp. unfold bare_names, resolve_dict.
  rewrite lookup_fmap, lookup_empty.
  split_and!; [apply is_Some_if_decide..|done].
Qed.

(** An explicit output path takes the place of the one [map_io] derives,
    and it is resolved twice: once when the explicit mapping is resolved and
    once more when the outputs are bound. *)
Theorem outputs_prefer_explicit_paths m cfg env sh bn ctx id :
  ModuleContext_init decompose_depname m cfg env sh bn = Returned ctx →
  id ∈ bare_names decompose_depname (mod_produces m) →
  outputs ctx !! id =
    Some (resolve env
            match cfg_produces cfg !! id with
            | Some v => resolve env v
            | None =>
                dict_get (map_io m (partial_context m env sh bn (takes ctx) (values ctx)
                                      (produces ctx))) id
            end).
Proof.
  intros (_ & _ & Hp & Ho)%init_inv Hin.
  rewrite (getreqmaybe_lookup _ _ _ _ _ _ _ Ho id).
  rewrite bool_decide_eq_true_2 by done. do 2 f_equal.
  unfold dict_get, resolve_dict. rewrite lookup_union, lookup_fmap.
  destruct (cfg_produces cfg !! id) as [v|]; simpl.
  - by destruct (map_io m _ !! id).
  - by destruct (map_io m _ !! id).
Qed.

(** When every required input and value has an entry, and every required
    output has an explicit or a derived path, the construction returns a
    context, named after the module. *)
Theorem init_returns m cfg env sh bn :
  Forall (λ dep, unmet decompose_depname (cfg_takes cfg) dep = false) (mod_takes m) →
  Forall (λ dep, unmet decompose_depname (cfg_values cfg) dep = false) (mod_values m) →
  (∀ ctx, Forall (λ dep, unmet decompose_depname
                    (resolve_dict env (cfg_produces cfg) ∪ map_io m ctx) dep = false)
            (mod_produces m)) →
  ∃ ctx, ModuleContext_init decompose_depname m cfg env sh bn = Returned ctx ∧
         module_name ctx = name m ∧ share ctx = sh ∧ bin ctx = bn.
Proof.
  intros Ht Hv Ho. unfold ModuleContext_init.
  destruct (getreqmaybe_returns decompose_depname (name m) env ∅ _ _ Ht) as [tk ->].
  destruct (getreqmaybe_returns decompose_depname (name m) env ∅ _ _ Hv) as [vl ->].
  simpl.
  destruct (getreqmaybe_returns decompose_depname (name m) env ∅ _ _ (Ho
    (partial_context m env sh bn tk vl
       (map_fold (λ id v obj, setattr obj id v) ∅ (resolve_dict env (cfg_produces cfg))))))
    as [out ->].
  simpl. by eexists.
Qed.

End with_decoder.

Lemma outputs_prefer_explicit_paths_witness :
  ModuleContext_init decompose_suffix synth_stage synth_config marking_env "share" "bin"
    = Returned synth_built ∧
  "eblif" ∈ bare_names decompose_suffix (mod_produces synth_stage) ∧
  outputs synth_built !! "eblif" = Some (VStr "r:r:out.eblif").
Proof.
  assert ("eblif" ∈ bare_names decompose_suffix (mod_produces synth_stage)) as Hin
    by apply list_elem_of_here.
  split; [reflexivity|]. split; [exact Hin|].
  exact (outputs_prefer_explicit_paths decompose_suffix synth_stage synth_config marking_env
           "share" "bin" synth_built "eblif" eq_refl Hin).
Defined.

Lemma init_returns_witness :
  ∃ ctx, ModuleContext_init decompose_suffix synth_stage synth_config marking_env
           "share" "bin" = Returned ctx ∧
         module_name ctx = "synth" ∧ share ctx = "share" ∧ bin ctx = "bin".
Proof.
  apply (init_returns decompose_suffix synth_stage synth_config marking_env "share" "bin").
  - repeat constructor.
  - constructor.
  - intros ctx. repeat constructor.
Defined.

Lemma context_binds_declared_names_witness :
  synth_context ["x?"] [] [] = Returned context_x_none ∧
  (is_Some (takes context_x_none !! "x") ↔ "x" ∈ bare_names decompose_suffix ["x?"]).
Proof.
  split; [reflexivity|].
  exact (proj1 (context_binds_declared_names decompose_suffix (stage "synth" ["x?"] [] [])
                  empty_config plain_env "share" "bin" context_x_none "x" eq_refl)).
Defined.

End ModuleMore.

(** ** Facts about the descriptions of the outputs *)

Module MetaFacts.
Import ModulePy ModuleMeta.

Lemma metadata_step_insert pm meta prod :
  metadata_step pm meta prod
    = <[strip_markers prod := description pm (strip_markers prod)]> meta.
Proof.
  unfold metadata_step, description. destruct pm as [pm|]; [|done].
  by destruct (pm !! strip_markers prod).
Qed.

Lemma metadata_fold_lookup pm prods meta k :
  fold_left (metadata_step pm) prods meta !! k =
    if bool_decide (k ∈ strip_markers <$> prods) then Some (description pm k)
    else meta !! k.
Proof.
  revert meta. induction prods as [|prod prods IH]; intros meta; simpl; [done|].
  rewrite IH, metadata_step_insert.
  destruct (decide (k = strip_markers prod)) as [->|Hne].
  - rewrite lookup_insert_eq.
    rewrite (bool_decide_eq_true_2 (_ ∈ _ :: _)) by apply list_elem_of_here.
    by case_bool_decide.
  - rewrite lookup_insert_ne by done.
    apply (f_equal (λ b : bool, if b then _ else _)).
    apply bool_decide_ext. rewrite elem_of_cons.
    split; [by right|by intros [?|?]].
Qed.

Lemma description_nonempty pm k : description pm k ≠ "".
Proof.
  unfold description. destruct pm as [pm|]; [|done].
  destruct (pm !! k) as [d|]; [|done].
  destruct d; simpl; done.
Qed.

(** The metadata has one entry for each declared output, under its name
    with every [?] and [!] removed, and no other entry.  The entry is the
    description of [prod_meta] for that name when there is a non-empty one,
    and a placeholder otherwise; it is never the empty string. *)
Theorem get_mod_metadata_lookup produces pm k :
  get_mod_metadata produces pm !! k =
    (if bool_decide (k ∈ strip_markers <$> produces) then Some (description pm k)
     else None) ∧
  get_mod_metadata produces pm !! k ≠ Some "".
Proof.
  unfold get_mod_metadata. rewrite metadata_fold_lookup, lookup_empty.
  split; [done|]. case_bool_decide; [|done].
  intros [= H']. by apply description_nonempty in H'.
Qed.

Lemma remove_char_absent c s : ¬ In c (list_ascii_of_string (remove_char c s)).
Proof.
  induction s as [|a s IH]; simpl; [tauto|].
  destruct (Ascii.eqb a c) eqn:E; [done|].
  simpl. intros [->|H]; [|done]. by rewrite Ascii.eqb_refl in E.
Qed.

Lemma remove_char_sub c b s :
  In b (list_ascii_of_string (remove_char c s)) → In b (list_ascii_of_string s).
Proof.
  induction s as [|a s IH]; simpl; [done|].
  destruct (Ascii.eqb a c); simpl; tauto.
Qed.

(** No key of the metadata holds a [?] or a [!], wherever the marker stood
    in the declared name. *)
Theorem get_mod_metadata_keys_unmarked produces pm k :
  is_Some (get_mod_metadata produces pm !! k) →
  ¬ In "?"%char (list_ascii_of_string k) ∧ ¬ In "!"%char (list_ascii_of_string k).
Proof.
  unfold get_mod_metadata. rewrite metadata_fold_lookup, lookup_empty.
  case_bool_decide as Hin; [intros _|by intros [? ?]].
  apply list_elem_of_fmap in Hin as (prod & -> & _). unfold strip_markers. split.
  - intros H%remove_char_sub. by apply remove_char_absent in H.
  - apply remove_char_absent.
Qed.

Lemma get_mod_metadata_keys_unmarked_witness :
  is_Some (get_mod_metadata ["lo?g!"] None !! "log") ∧
  ¬ In "?"%char (list_ascii_of_string "log").
Proof.
  assert (is_Some (get_mod_metadata ["lo?g!"] None !! "log")) as H by (by eexists).
  split; [exact H|].
  exact (proj1 (get_mod_metadata_keys_unmarked ["lo?g!"] None "log" H)).
Defined.

End MetaFacts.

(** ** Facts about the inspector *)

Module InspectorFacts.
Import ModulePy ModuleMeta Inspector.

Section with_decoder.
Variable decompose_depname : string → string * qualifier.
Variables BRIGHT RESET_ALL : string.

(** Every declared name is listed under exactly one of the three
    qualifiers: the three lists have, together, one line for each name. *)
Theorem get_if_qualifier_partition deplist :
  (length (_get_if_qualifier decompose_depname BRIGHT RESET_ALL deplist req)
   + length (_get_if_qualifier decompose_depname BRIGHT RESET_ALL deplist maybe)
   + length (_get_if_qualifier decompose_depname BRIGHT RESET_ALL deplist demand))%nat
  = length deplist.
Proof.
  induction deplist as [|dep deps IH]; simpl; [done|].
  destruct (decompose_depname dep) as [id []]; simpl; lia.
Qed.

(** The step of [_make_io_dict_dict]. *)
Lemma io_step_insert (metas : option (gmap string string)) (d : gmap string io_dict) io :
  (let '(id, e) := _make_io_dict decompose_depname io metas in <[id := e]> d)
  = <[(decompose_depname io).1 :=
        mkIo (decompose_depname io).2 (metas ≫= (.!! (decompose_depname io).1))]> d.
Proof. unfold _make_io_dict. by destruct (decompose_depname io). Qed.

Lemma io_fold_keys ios metas (d : gmap string io_dict) k :
  is_Some (fold_left (λ d io, let '(id, e) := _make_io_dict decompose_depname io metas
                              in <[id := e]> d) ios d !! k)
  ↔ k ∈ bare_names decompose_depname ios ∨ is_Some (d !! k).
Proof.
  revert d. induction ios as [|io ios IH]; intros d; simpl.
  - split; [by right|]. intros [H|H]; [|done]. by apply elem_of_nil in H.
  - rewrite IH, io_step_insert, lookup_insert_is_Some, elem_of_cons.
    unfold bare_names. destruct (decide ((decompose_depname io).1 = k)); intuition congruence.
Qed.

Lemma io_fold_skip ios metas (d : gmap string io_dict) k :
  k ∉ bare_names decompose_depname ios →
  fold_left (λ d io, let '(id, e) := _make_io_dict decompose_depname io metas
                     in <[id := e]> d) ios d !! k = d !! k.
Proof.
  revert d. induction ios as [|io ios IH]; intros d Hk; simpl; [done|].
  apply not_elem_of_cons in Hk as [Hne Hk].
  rewrite IH by done. rewrite io_step_insert. by rewrite lookup_insert_ne.
Qed.

Lemma io_fold_meta ios metas (d : gmap string io_dict) k e :
  (∀ e', d !! k = Some e' → io_meta e' = metas ≫= (.!! k)) →
  fold_left (λ d io, let '(id, e) := _make_io_dict decompose_depname io metas
                     in <[id := e]> d) ios d !! k = Some e →
  io_meta e = metas ≫= (.!! k).
Proof.
  revert d. induction ios as [|io ios IH]; intros d Hd; simpl; [apply Hd|].
  apply IH. rewrite io_step_insert. intros e'.
  destruct (decide ((decompose_depname io).1 = k)) as [<-|Hne].
  - rewrite lookup_insert_eq. by intros [= <-].
  - rewrite lookup_insert_ne by done. apply Hd.
Qed.

(** The info of a list of declarations has exactly their bare names as
    keys. *)
Theorem make_io_dict_dict_keys ios metas k :
  is_Some (_make_io_dict_dict decompose_depname ios metas !! k)
  ↔ k ∈ bare_names decompose_depname ios.
Proof.
  unfold _make_io_dict_dict. rewrite io_fold_keys, lookup_empty.
  split; [intros [H|[? ?]]; done|by left].
Qed.

(** When two declarations decode to one bare name, the info keeps the
    qualifier of the last one; the description is looked up by the bare
    name. *)
Theorem make_io_dict_dict_last_wins before dep after metas id q :
  decompose_depname dep = (id, q) →
  id ∉ bare_names decompose_depname after →
  _make_io_dict_dict decompose_depname (before ++ dep :: after) metas !! id
    = Some (mkIo q (metas ≫= (.!! id))).
Proof.
  intros D Hk. unfold _make_io_dict_dict. rewrite fold_left_app. simpl.
  rewrite io_fold_skip by done. rewrite io_step_insert, D. simpl.
  apply lookup_insert_eq.
Qed.

(** The ['values'] entry of the info of a module is computed from the
    declared outputs: its keys are the bare names of [produces], whatever
    values the module declares, and none of its entries has a description. *)
Theorem module_info_values_lists_outputs has_prod_meta m k :
  (is_Some (info_values (_get_module_info_dict decompose_depname has_prod_meta m) !! k)
   ↔ k ∈ bare_names decompose_depname (mod_produces m)) ∧
  (∀ e, info_values (_get_module_info_dict decompose_depname has_prod_meta m) !! k = Some e →
        io_meta e = None).
Proof.
  simpl. unfold _make_io_dict_dict. split.
  - rewrite io_fold_keys, lookup_empty. split; [intros [H|[? ?]]; done|by left].
  - intros e. apply io_fold_meta. by rewrite lookup_empty.
Qed.

End with_decoder.

Lemma make_io_dict_dict_last_wins_witness :
  decompose_suffix "log!" = ("log", demand) ∧
  ("log" ∉ bare_names decompose_suffix []) ∧
  _make_io_dict_dict decompose_suffix ["log"; "eblif"; "log!"]
    (Some {[ "log" := "the log" ]}) !! "log"
    = Some (mkIo demand (Some "the log")).
Proof.
  assert ("log" ∉ bare_names decompose_suffix []) as H by apply not_elem_of_nil.
  split; [reflexivity|]. split; [exact H|].
  exact (make_io_dict_dict_last_wins decompose_suffix ["log"; "eblif"] "log!" []
           (Some {[ "log" := "the log" ]}) "log" demand eq_refl H).
Defined.

End InspectorFacts.

(** ** Facts about the placement constraints *)

Module PlaceFacts.
Import PlacePy.

Lemma get_root_cluster_last curr :
  get_root_cluster curr = (λ i, [i]) <$> last curr.
Proof. induction curr as [|i [|j parent] IH]; done. Qed.

(** [get_root_cluster] answers with the child of the root that holds the
    element: nothing for the root itself, and otherwise the place made of
    the last index alone, an ancestor of the element (or the element), whose
    parent is the root and whose own root cluster is itself. *)
Theorem get_root_cluster_top curr :
  get_root_cluster curr = (λ i, [i]) <$> last curr ∧
  (get_root_cluster curr = None ↔ curr = []) ∧
  (∀ r, get_root_cluster curr = Some r →
        getparent r = Some [] ∧ get_root_cluster r = Some r ∧
        ∃ below, curr = (below ++ r)%list).
Proof.
  pose proof (get_root_cluster_last curr) as H.
  split; [done|]. rewrite H. split.
  - destruct curr as [|i parent]; [done|]. split; [|done].
    intros H1. assert (is_Some (last (i :: parent))) as [x Hx] by by apply last_is_Some.
    by rewrite Hx in H1.
  - intros r Hr. destruct (last curr) as [x|] eqn:L; [|done].
    injection Hr as <-. split_and!; [done..|].
    apply last_Some in L as [below ->]. by exists below.
Qed.

Lemma climb_root_cluster top :
  climb top = match get_root_cluster top with
              | Some r => Done r
              | None => Failed (AttributeError "NoneType" "getparent")
              end.
Proof. induction top as [|i [|j parent] IH]; done. Qed.

(** *** Insertion-ordered dictionaries *)

Section od.
Context {K V : Type} `{EqDecision K}.
Implicit Types (d : list (K * V)).

Lemma od_get_set_eq d k v : od_get (od_set d k v) k = Some v.
Proof.
  induction d as [|[k' v'] d IH]; simpl.
  - by rewrite decide_True.
  - destruct (decide (k' = k)) as [->|Hne]; simpl.
    + by rewrite decide_True.
    + by rewrite decide_False.
Qed.

Lemma od_get_set_ne d k v k' : k ≠ k' → od_get (od_set d k v) k' = od_get d k'.
Proof.
  intros Hne. induction d as [|[k0 v0] d IH]; simpl.
  - by rewrite decide_False.
  - destruct (decide (k0 = k)) as [->|H0]; simpl.
    + by rewrite !decide_False.
    + by rewrite IH.
Qed.

Lemma od_set_set d k v v' : od_set (od_set d k v) k v' = od_set d k v'.
Proof.
  induction d as [|[k0 v0] d IH]; simpl.
  - by rewrite decide_True.
  - destruct (decide (k0 = k)) as [->|H0]; simpl.
    + by rewrite decide_True.
    + rewrite decide_False by done. by rewrite IH.
Qed.

Lemma od_set_elem d k v k' v' :
  (k', v') ∈ od_set d k v → (k', v') = (k, v) ∨ (k', v') ∈ d.
Proof.
  induction d as [|[k0 v0] d IH]; simpl.
  - intros ->%list_elem_of_singleton. by left.
  - destruct (decide (k0 = k)) as [->|H0].
    + intros [->|Hin]%elem_of_cons; [by left|].
      right. by apply list_elem_of_further.
    + intros [->|Hin]%elem_of_cons.
      * right. apply list_elem_of_here.
      * destruct (IH Hin) as [?|?]; [by left|].
        right. by apply list_elem_of_further.
Qed.

Lemma od_set_keys d k v k' :
  k' ∈ (od_set d k v).*1 ↔ k' = k ∨ k' ∈ d.*1.
Proof.
  induction d as [|[k0 v0] d IH]; simpl.
  - rewrite list_elem_of_singleton, elem_of_nil. tauto.
  - destruct (decide (k0 = k)) as [->|H0]; simpl.
    + rewrite !elem_of_cons. tauto.
    + rewrite !elem_of_cons, IH. tauto.
Qed.

Lemma od_set_NoDup d k v : NoDup d.*1 → NoDup (od_set d k v).*1.
Proof.
  induction d as [|[k0 v0] d IH]; simpl.
  - intros _. apply NoDup_singleton.
  - rewrite !NoDup_cons. intros [Hn Hd].
    destruct (decide (k0 = k)) as [->|H0]; simpl; rewrite NoDup_cons.
    + done.
    + split; [|by apply IH]. rewrite od_set_keys. intros [?|?]; done.
Qed.

Lemma od_get_None d k : od_get d k = None ↔ k ∉ d.*1.
Proof.
  induction d as [|[k0 v0] d IH]; simpl.
  - split; [intros _; apply not_elem_of_nil|done].
  - rewrite not_elem_of_cons. destruct (decide (k0 = k)) as [->|H0].
    + split; [done|]. by intros [? _].
    + rewrite IH. split; [by intros ?; split|by intros [_ ?]].
Qed.

End od.

(** *** [constrain_block] *)

Lemma constrain_block_ok b x y z comment s roots r :
  od_get (constraints s) b = None →
  block_to_root_block s = Some roots →
  roots !! b = Some r →
  constrain_block b [x; y; z] comment s =
    (mkPlace (od_set (constraints s) r (mkConstraint b x y z comment)) (block_to_loc s)
       (net_root s) (block_to_root_block s), Done tt).
Proof.
  intros Hb Hr Hk. unfold constrain_block. simpl.
  rewrite bool_decide_eq_false_2 by (rewrite Hb; by intros [? ?]).
  by rewrite Hr, Hk.
Qed.

Lemma constrain_block_done b loc comment s s' :
  constrain_block b loc comment s = (s', Done tt) →
  ∃ x y z roots r,
    loc = [x; y; z] ∧ od_get (constraints s) b = None ∧
    block_to_root_block s = Some roots ∧ roots !! b = Some r ∧
    s' = mkPlace (od_set (constraints s) r (mkConstraint b x y z comment)) (block_to_loc s)
           (net_root s) (block_to_root_block s).
Proof.
  unfold constrain_block.
  destruct (length loc =? 3)%nat eqn:L; simpl; [|done].
  case_bool_decide as Hb; [done|].
  destruct (block_to_root_block s) as [roots|] eqn:Hr; [|done].
  destruct (roots !! b) as [r|] eqn:Hk; [|done].
  intros [= <-]. apply Nat.eqb_eq in L.
  destruct loc as [|x [|y [|z [|? ?]]]]; try done.
  exists x, y, z, roots, r. split_and!; try done.
  destruct (od_get (constraints s) b) eqn:G; [|done]. destruct Hb. by eexists.
Qed.

Lemma constrain_block_failed b loc comment s s' e :
  constrain_block b loc comment s = (s', Failed e) → s' = s.
Proof.
  unfold constrain_block.
  destruct (length loc =? 3)%nat; simpl; [|by intros [= <-]].
  case_bool_decide; [by intros [= <-]|].
  destruct (block_to_root_block s) as [roots|]; [|by intros [= <-]].
  destruct (roots !! b); [done|by intros [= <-]].
Qed.

(** [constrain_block] succeeds exactly when the location has three
    coordinates, the block name is not a key of the constraints and the
    block has a root block; it then files the constraint under the root
    block and leaves the other keys alone.  When it fails, the object is
    unchanged. *)
Theorem constrain_block_effect b loc comment s :
  ((constrain_block b loc comment s).2 = Done tt ↔
     length loc = 3%nat ∧ od_get (constraints s) b = None ∧
     is_Some (block_to_root_block s ≫= (.!! b))) ∧
  (∀ e, (constrain_block b loc comment s).2 = Failed e →
        (constrain_block b loc comment s).1 = s) ∧
  (∀ r, (constrain_block b loc comment s).2 = Done tt →
        block_to_root_block s ≫= (.!! b) = Some r →
        od_get (constraints (constrain_block b loc comment s).1) r
          = Some (mkConstraint b (default 0 (loc !! 0%nat)) (default 0 (loc !! 1%nat))
                    (default 0 (loc !! 2%nat)) comment) ∧
        ∀ k, k ≠ r →
          od_get (constraints (constrain_block b loc comment s).1) k
            = od_get (constraints s) k).
Proof.
  split_and!.
  - split.
    + destruct (constrain_block b loc comment s) as [s' o] eqn:E. simpl. intros ->.
      apply constrain_block_done in E as (x & y & z & roots & r & -> & ? & Hr & ? & _).
      rewrite Hr. simpl. split_and!; [done..|by eexists].
    + intros (L & Hb & [r Hr]).
      destruct loc as [|x [|y [|z [|? ?]]]]; try done.
      destruct (block_to_root_block s) as [roots|] eqn:E; [|done]. simpl in Hr.
      by rewrite (constrain_block_ok b x y z comment s roots r).
  - intros e. destruct (constrain_block b loc comment s) as [s' o] eqn:E. simpl.
    intros ->. by apply constrain_block_failed in E.
  - intros r. destruct (constrain_block b loc comment s) as [s' o] eqn:E. simpl. intros ->.
    apply constrain_block_done in E as (x & y & z & roots & r' & -> & ? & Hr & Hk & ->).
    rewrite Hr. simpl. rewrite Hk. intros [= ->]. split.
    + apply od_get_set_eq.
    + intros k Hne. by apply od_get_set_ne.
Qed.

(** Constraining a second block of the same cluster drops the constraint of
    the first without a word: the object is as if the first call had not
    been made. *)
Theorem constrain_block_same_cluster b1 b2 x1 y1 z1 x2 y2 z2 c1 c2 s roots r :
  block_to_root_block s = Some roots →
  roots !! b1 = Some r →
  roots !! b2 = Some r →
  od_get (constraints s) b1 = None →
  od_get (constraints s) b2 = None →
  b2 ≠ r →
  constrain_block b2 [x2; y2; z2] c2 (constrain_block b1 [x1; y1; z1] c1 s).1
    = constrain_block b2 [x2; y2; z2] c2 s ∧
  (constrain_block b2 [x2; y2; z2] c2 s).2 = Done tt.
Proof.
  intros Hr H1 H2 G1 G2 Hne.
  rewrite (constrain_block_ok b1 x1 y1 z1 c1 s roots r) by done. simpl.
  rewrite (constrain_block_ok b2 x2 y2 z2 c2 s roots r) by done.
  rewrite (constrain_block_ok b2 x2 y2 z2 c2 _ roots r); simpl; try done.
  - by rewrite od_set_set.
  - by rewrite od_get_set_ne.
Qed.

Lemma constrain_block_same_cluster_witness :
  constraints
    (constrain_block "open" [10; -2; 13] "second"
       (constrain_block "lut_a" [1; 2; 0] "first" net_loaded).1).1
  = [("clb0", mkConstraint "open" 10 (-2) 13 "second")].
Proof.
  pose proof (constrain_block_same_cluster "lut_a" "open" 1 2 0 10 (-2) 13 "first" "second"
                net_loaded
                (match block_to_root_block net_loaded with Some m => m | None => ∅ end)
                "clb0" eq_refl eq_refl eq_refl eq_refl eq_refl) as [H _]; [done|].
  rewrite H. reflexivity.
Defined.

(** *** The states the operations reach *)

Lemma load_state s :
  (load_loc_sites_from_net_file s).1 =
    mkPlace (constraints s) (block_to_loc (load_loc_sites_from_net_file s).1) (net_root s)
      (Some (load_roots (net_root s) (iter (net_root s) "block") ∅).1).
Proof.
  unfold load_loc_sites_from_net_file.
  destruct (load_roots _ _ _) as [roots [[]|e]]; simpl; [|done].
  by destruct (load_locs _ _ _) as [locs r2].
Qed.

Lemma well_keyed_init root : well_keyed (init root).
Proof.
  split_and!; simpl; [apply NoDup_nil_2|by intros k c ?%elem_of_nil|by left].
Qed.

Lemma well_keyed_step s o : well_keyed s → well_keyed (run_operation s o).
Proof.
  intros (Hn & Hk & Hr). destruct o as [|b loc comment]; simpl.
  - rewrite load_state. split_and!; simpl; [done| |by right].
    intros k c Hin. specialize (Hk k c Hin).
    destruct Hr as [Hr|Hr]; rewrite Hr in Hk; done.
  - destruct (constrain_block b loc comment s) as [s' [[]|e]] eqn:E; simpl.
    + apply constrain_block_done in E as (x & y & z & roots & r & -> & ? & Er & Hb & ->).
      split_and!; simpl; [by apply od_set_NoDup| |done].
      intros k c [[= -> ->]|Hin]%od_set_elem.
      * rewrite Er. simpl. done.
      * by apply Hk.
    + apply constrain_block_failed in E as ->. done.
Qed.

Lemma well_keyed_run os s : well_keyed s → well_keyed (run_operations os s).
Proof.
  revert s. induction os as [|o os IH]; intros s Hs; [done|].
  simpl. apply IH. by apply well_keyed_step.
Qed.

(** In such a state no two constraints name the same block. *)
Lemma well_keyed_names s : well_keyed s → NoDup (pc_name <$> (constraints s).*2).
Proof.
  intros (Hn & Hk & _). revert Hn Hk.
  induction (constraints s) as [|[k c] cs IH]; simpl; intros Hn Hk; [apply NoDup_nil_2|].
  apply NoDup_cons in Hn as [Hnk Hn]. apply NoDup_cons. split.
  - intros (c' & Heq & (kc & -> & Hin)%list_elem_of_fmap)%list_elem_of_fmap.
    destruct kc as [k' c']. simpl in *.
    assert (block_to_root_block s ≫= (.!! pc_name c) = Some k) as H1
      by (apply Hk; apply list_elem_of_here).
    assert (block_to_root_block s ≫= (.!! pc_name c') = Some k') as H2
      by (apply Hk; by apply list_elem_of_further).
    rewrite Heq, H2 in H1. injection H1 as ->.
    apply Hnk. apply list_elem_of_fmap. by exists (k, c').
  - apply IH; [done|]. intros k' c' Hin. apply Hk. by apply list_elem_of_further.
Qed.

Lemma output_loop_distinct nl items cb :
  NoDup (pc_name <$> items.*2) →
  (∀ c, c ∈ items.*2 → cb !! pc_name c = None) →
  output_loop nl items cb = (format_constraint nl <$> items.*2, Done tt).
Proof.
  revert cb. induction items as [|[k c] items IH]; intros cb Hn Hcb; [done|].
  rewrite !fmap_cons in Hn. rewrite !fmap_cons. simpl in Hn.
  apply NoDup_cons in Hn as [Hc Hn].
  assert (cb !! pc_name c = None) as Hc0 by (apply Hcb; apply list_elem_of_here).
  cbn [output_loop]. rewrite Hc0.
  rewrite (IH (<[pc_name c := c]> cb)); [done|done|].
  intros c' Hin. rewrite lookup_insert_ne.
  - apply Hcb. by apply list_elem_of_further.
  - intros Heq. apply Hc. rewrite Heq. by apply list_elem_of_fmap_2.
Qed.

(** However the object was loaded and constrained since its construction,
    [output_place_constraints] writes one line for each constraint, in the
    order of the constraints, and never stops on conflicting constraints. *)
Theorem output_after_operations root os :
  output_place_constraints (run_operations os (init root))
    = (format_constraint (max_name_length (constraints (run_operations os (init root))))
         <$> (constraints (run_operations os (init root))).*2,
       Done tt).
Proof.
  pose proof (well_keyed_names _ (well_keyed_run os _ (well_keyed_init root))) as Hn.
  unfold output_place_constraints.
  destruct (constraints (run_operations os (init root))) as [|kc cs] eqn:E; [done|].
  rewrite <- E in *. apply output_loop_distinct; [done|].
  intros. apply lookup_empty.
Qed.

(** Two constraints for one block with different coordinates stop the
    writing with exit code -1, after the lines of the constraints before the
    second one. *)
Theorem output_conflict_exits k1 k2 c1 c2 rest :
  pc_name c1 = pc_name c2 →
  (pc_x c1, pc_y c1, pc_z c1) ≠ (pc_x c2, pc_y c2, pc_z c2) →
  ∀ root locs roots,
    output_place_constraints (mkPlace ((k1, c1) :: (k2, c2) :: rest) locs root roots)
      = ([format_constraint (max_name_length ((k1, c1) :: (k2, c2) :: rest)) c1],
         Failed (SystemExit (-1))).
Proof.
  intros Hname Hne root locs roots. unfold output_place_constraints. simpl.
  rewrite lookup_empty, <- Hname, lookup_insert_eq.
  destruct (pc_x c1 =? pc_x c2) eqn:X; simpl; [|done].
  destruct (pc_y c1 =? pc_y c2) eqn:Y; simpl; [|done].
  destruct (pc_z c1 =? pc_z c2) eqn:Z; simpl; [|done].
  destruct Hne. apply Z.eqb_eq in X, Y, Z. congruence.
Qed.

Lemma output_conflict_exits_witness :
  pc_name (mkConstraint "a" 1 2 3 "") = pc_name (mkConstraint "a" 1 2 4 "") ∧
  (output_place_constraints
     (mkPlace [("r1", mkConstraint "a" 1 2 3 ""); ("r2", mkConstraint "a" 1 2 4 "")]
        [] net None)).2 = Failed (SystemExit (-1)).
Proof.
  split; [reflexivity|].
  rewrite (output_conflict_exits "r1" "r2" (mkConstraint "a" 1 2 3 "")
             (mkConstraint "a" 1 2 4 "") [] eq_refl); [reflexivity|discriminate].
Defined.

(** *** Reading the netlist *)

Lemma element_at_top root i : element_at root [i] = getchildren root !! i.
Proof. unfold element_at. simpl. by destruct (getchildren root !! i). Qed.

Lemma root_cluster_element root at_ r rb :
  get_root_cluster at_ = Some r → element_at root r = Some rb →
  ∃ i, last at_ = Some i ∧ getchildren root !! i = Some rb.
Proof.
  rewrite (get_root_cluster_last at_).
  destruct (last at_) as [i|]; [|done]. intros [= <-]. rewrite element_at_top. eauto.
Qed.

Lemma load_roots_values root blocks d d' r k v :
  load_roots root blocks d = (d', r) →
  d' !! k = Some v →
  d !! k = Some v ∨
  ∃ at_ el i rb, (at_, el) ∈ blocks ∧ attrib el !! "name" = Some k ∧
    last at_ = Some i ∧ getchildren root !! i = Some rb ∧ attrib rb !! "name" = Some v.
Proof.
  revert d. induction blocks as [|[at_ el] blocks IH]; intros d; simpl.
  - intros [= <- _]. by left.
  - assert (∀ d0, load_roots root blocks d0 = (d', r) → d' !! k = Some v →
              d0 !! k = Some v ∨
              ∃ at_0 el0 i rb, (at_0, el0) ∈ (at_, el) :: blocks ∧
                attrib el0 !! "name" = Some k ∧ last at_0 = Some i ∧
                getchildren root !! i = Some rb ∧ attrib rb !! "name" = Some v) as IH'.
    { intros d0 H1 H2. destruct (IH d0 H1 H2) as [?|(a & e & i & rb & Hin & ?)]; [by left|].
      right. exists a, e, i, rb. split; [by apply list_elem_of_further|done]. }
    destruct (get_root_cluster at_) as [rt|] eqn:G; [|apply IH'].
    destruct (element_at root rt) as [rb|] eqn:Eat; [|intros [= <- _]; by left].
    unfold attrib_item.
    destruct (attrib rb !! "name") as [vn|] eqn:Evn; [|intros [= <- _]; by left].
    destruct (attrib el !! "name") as [kn|] eqn:Ekn; [|intros [= <- _]; by left].
    intros H1 H2. destruct (IH' _ H1 H2) as [H3|?]; [|by right].
    destruct (decide (kn = k)) as [->|Hne].
    + rewrite lookup_insert_eq in H3. injection H3 as ->. right.
      destruct (root_cluster_element root at_ rt rb G Eat) as (i & ? & ?).
      exists at_, el, i, rb. split; [apply list_elem_of_here|done].
    + rewrite lookup_insert_ne in H3 by done. by left.
Qed.

(** After [load_loc_sites_from_net_file], however it ended, every entry
    of [block_to_root_block] goes from the name of a [block] element that is
    not the root to the name of the child of the root that holds it. *)
Theorem load_maps_blocks_to_clusters s k v :
  block_to_root_block (load_loc_sites_from_net_file s).1 ≫= (.!! k) = Some v →
  ∃ at_ el i rb,
    (at_, el) ∈ iter (net_root s) "block" ∧ attrib el !! "name" = Some k ∧
    last at_ = Some i ∧ getchildren (net_root s) !! i = Some rb ∧
    attrib rb !! "name" = Some v.
Proof.
  rewrite load_state. simpl.
  destruct (load_roots (net_root s) (iter (net_root s) "block") ∅) as [d' r] eqn:E.
  simpl. intros H.
  destruct (load_roots_values _ _ _ _ _ k v E H) as [H0|?]; [|done].
  by rewrite lookup_empty in H0.
Qed.

Lemma load_maps_blocks_to_clusters_witness :
  block_to_root_block (load_loc_sites_from_net_file (init net)).1 ≫= (.!! "lut_a")
    = Some "clb0" ∧
  ∃ at_ el i rb,
    (at_, el) ∈ iter net "block" ∧ attrib el !! "name" = Some "lut_a" ∧
    last at_ = Some i ∧ getchildren net !! i = Some rb ∧
    attrib rb !! "name" = Some "clb0".
Proof.
  split; [reflexivity|].
  exact (load_maps_blocks_to_clusters (init net) "lut_a" "clb0" eq_refl).
Defined.

Lemma climb_done top t :
  climb top = Done t →
  top ≠ [] ∧ ∃ i, last top = Some i ∧ t = [i].
Proof.
  rewrite climb_root_cluster, (get_root_cluster_last top).
  destruct top as [|j top]; [done|]. 
  destruct (last (j :: top)) as [i|]; [|done]. intros [= <-]. eauto.
Qed.

Lemma load_locs_entries root attrs d d' r k v :
  load_locs root attrs d = (d', r) →
  (k, v) ∈ d' →
  (k, v) ∈ d ∨
  ∃ at_ attr i b, (at_, attr) ∈ attrs ∧ attrib attr !! "name" = Some "LOC" ∧
    (2 ≤ length at_)%nat ∧ last at_ = Some i ∧ getchildren root !! i = Some b ∧
    k = attrib b !! "name" ∧ v = text attr.
Proof.
  revert d. induction attrs as [|[at_ attr] attrs IH]; intros d; simpl.
  - intros [= <- _]. by left.
  - assert (∀ d0, load_locs root attrs d0 = (d', r) → (k, v) ∈ d' →
              (k, v) ∈ d0 ∨
              ∃ at_0 attr0 i b, (at_0, attr0) ∈ (at_, attr) :: attrs ∧
                attrib attr0 !! "name" = Some "LOC" ∧ (2 ≤ length at_0)%nat ∧
                last at_0 = Some i ∧ getchildren root !! i = Some b ∧
                k = attrib b !! "name" ∧ v = text attr0) as IH'.
    { intros d0 H1 H2. destruct (IH d0 H1 H2) as [?|(a & e & i & b & Hin & ?)]; [by left|].
      right. exists a, e, i, b. split; [by apply list_elem_of_further|done]. }
    unfold attrib_item. destruct (attrib attr !! "name") as [nm|] eqn:En;
      [|intros [= <- _]; by left].
    destruct (String.eqb nm "LOC") eqn:Enm; simpl; [|apply IH'].
    apply String.eqb_eq in Enm as ->.
    destruct at_ as [|j top]; simpl; [intros [= <- _]; by left|].
    destruct (climb top) as [t|e] eqn:C; [|intros [= <- _]; by left].
    destruct (element_at root t) as [b|] eqn:Eat; [|intros [= <- _]; by left].
    intros H1 H2. destruct (IH' _ H1 H2) as [H3|?]; [|by right].
    apply od_set_elem in H3 as [[= -> ->]|?]; [|by left].
    right. apply climb_done in C as (Htop & i & L & ->).
    rewrite element_at_top in Eat.
    exists (j :: top), attr, i, b. split_and!; try done.
    + apply list_elem_of_here.
    + destruct top; [done|simpl; lia].
    + destruct top; done.
Qed.

Lemma load_locs_done root attrs d d' at_ attr :
  load_locs root attrs d = (d', Done tt) →
  (at_, attr) ∈ attrs →
  ∃ nm, attrib attr !! "name" = Some nm ∧ (nm = "LOC" → (2 ≤ length at_)%nat).
Proof.
  revert d. induction attrs as [|[a0 e0] attrs IH]; intros d; simpl.
  - by intros _ ?%elem_of_nil.
  - unfold attrib_item. destruct (attrib e0 !! "name") as [nm|] eqn:En; [|done].
    destruct (String.eqb nm "LOC") eqn:Enm; simpl.
    + apply String.eqb_eq in Enm as ->.
      destruct a0 as [|j top]; simpl; [done|].
      destruct (climb top) as [t|e] eqn:C; [|done].
      destruct (element_at root t) as [b|]; [|done].
      intros H [[= -> ->]|Hin]%elem_of_cons; [|by eapply IH].
      exists "LOC". split; [done|]. intros _.
      apply climb_done in C as (Htop & _). destruct top; [done|simpl; lia].
    + intros H [[= -> ->]|Hin]%elem_of_cons; [|by eapply IH].
      exists nm. split; [done|]. intros ->. done.
Qed.

(** Every location that [load_loc_sites_from_net_file] adds to
    [block_to_loc] is the text of a [LOC] attribute, filed under the name of
    the child of the root that holds the attribute, at least two levels
    above it. *)
Theorem load_files_locations_under_clusters s k v :
  (k, v) ∈ block_to_loc (load_loc_sites_from_net_file s).1 →
  (k, v) ∈ block_to_loc s ∨
  ∃ at_ attr i b,
    (at_, attr) ∈ iter (net_root s) "attribute" ∧ attrib attr !! "name" = Some "LOC" ∧
    (2 ≤ length at_)%nat ∧ last at_ = Some i ∧ getchildren (net_root s) !! i = Some b ∧
    k = attrib b !! "name" ∧ v = text attr.
Proof.
  unfold load_loc_sites_from_net_file.
  destruct (load_roots _ _ _) as [roots [[]|e]]; simpl; [|by left].
  destruct (load_locs _ _ _) as [locs r2] eqn:E. simpl.
  by apply load_locs_entries with (r := r2).
Qed.

Lemma load_files_locations_under_clusters_witness :
  (Some "clb0", Some "SLICE_X1Y2") ∈ block_to_loc (load_loc_sites_from_net_file (init net)).1 ∧
  ((Some "clb0", Some "SLICE_X1Y2") ∈ block_to_loc (init net) ∨
   ∃ at_ attr i b,
     (at_, attr) ∈ iter net "attribute" ∧ attrib attr !! "name" = Some "LOC" ∧
     (2 ≤ length at_)%nat ∧ last at_ = Some i ∧ getchildren net !! i = Some b ∧
     Some "clb0" = attrib b !! "name" ∧ Some "SLICE_X1Y2" = text attr).
Proof.
  assert ((Some "clb0", Some "SLICE_X1Y2")
            ∈ block_to_loc (load_loc_sites_from_net_file (init net)).1) as H
    by apply list_elem_of_here.
  split; [exact H|].
  exact (load_files_locations_under_clusters (init net) _ _ H).
Defined.

(** [load_loc_sites_from_net_file] ends well only when every [attribute]
    element has a name and no [LOC] attribute is the root or a child of the
    root. *)
Theorem load_done_needs_nested_locs s at_ attr :
  (load_loc_sites_from_net_file s).2 = Done tt →
  (at_, attr) ∈ iter (net_root s) "attribute" →
  ∃ nm, attrib attr !! "name" = Some nm ∧ (nm = "LOC" → (2 ≤ length at_)%nat).
Proof.
  unfold load_loc_sites_from_net_file.
  destruct (load_roots _ _ _) as [roots [[]|e]]; simpl; [|done].
  destruct (load_locs _ _ _) as [locs r2] eqn:E. simpl. intros ->.
  by eapply load_locs_done.
Qed.

Lemma load_done_needs_nested_locs_witness :
  (load_loc_sites_from_net_file (init net)).2 = Done tt ∧
  ([0; 0; 0; 0]%nat, Element "attribute" {[ "name" := "LOC" ]} (Some "SLICE_X1Y2") [])
    ∈ iter net "attribute" ∧
  ∃ nm, attrib (Element "attribute" {[ "name" := "LOC" ]} (Some "SLICE_X1Y2") []) !! "name"
          = Some nm ∧
        (nm = "LOC" → (2 ≤ length [0; 0; 0; 0]%nat)%nat).
Proof.
  assert (([0; 0; 0; 0]%nat, Element "attribute" {[ "name" := "LOC" ]} (Some "SLICE_X1Y2") [])
            ∈ iter net "attribute") as H by apply list_elem_of_here.
  split; [reflexivity|]. split; [exact H|].
  exact (load_done_needs_nested_locs (init net) _ _ eq_refl H).
Defined.

Lemma used_loop_names root inst blocks l nm :
  used_loop root inst blocks = Done l →
  nm ∈ l →
  ∃ at_ el instv i c,
    (at_, el) ∈ blocks ∧ attrib el !! "instance" = Some instv ∧
    contains inst instv = true ∧ getchildren el ≠ [] ∧
    last at_ = Some i ∧ getchildren root !! i = Some c ∧ attrib c !! "name" = Some nm.
Proof.
  revert l. induction blocks as [|[at_ el] blocks IH]; intros l; simpl.
  - intros [= <-]. by intros ?%elem_of_nil.
  - assert (∀ l0, used_loop root inst blocks = Done l0 → nm ∈ l0 →
              ∃ at_0 el0 instv i c,
                (at_0, el0) ∈ (at_, el) :: blocks ∧ attrib el0 !! "instance" = Some instv ∧
                contains inst instv = true ∧ getchildren el0 ≠ [] ∧
                last at_0 = Some i ∧ getchildren root !! i = Some c ∧
                attrib c !! "name" = Some nm) as IH'.
    { intros l0 H1 H2. destruct (IH l0 H1 H2) as (a & e & iv & i & c & Hin & ?).
      exists a, e, iv, i, c. split; [by apply list_elem_of_further|done]. }
    unfold attrib_item at 1. destruct (attrib el !! "instance") as [instv|] eqn:Ei; [|done].
    destruct (contains inst instv && negb (length (getchildren el) =? 0)%nat) eqn:Hc;
      [|apply IH'].
    apply andb_true_iff in Hc as [Hc Hch].
    destruct (get_root_cluster at_) as [rt|] eqn:G; simpl; [|done].
    destruct (element_at root rt) as [c|] eqn:Eat; [|done].
    unfold attrib_item. destruct (attrib c !! "name") as [cn|] eqn:Ecn; [|done].
    destruct (used_loop root inst blocks) as [l0|e] eqn:U; [|done].
    intros [= <-] [->|Hin]%elem_of_cons; [|by eapply IH'].
    destruct (root_cluster_element root at_ rt c G Eat) as (i & ? & ?).
    exists at_, el, instv, i, c. split_and!; try done.
    + apply list_elem_of_here.
    + intros Hnil. rewrite Hnil in Hch. done.
Qed.

(** Every name that [get_used_instances] returns is the name of a child of
    the root, and that child holds (or is) a [block] element with child
    elements whose instance contains the requested text; a [block] without
    children adds nothing. *)
Theorem used_instances_are_clusters s inst l nm :
  get_used_instances s inst = Done l →
  nm ∈ l →
  ∃ at_ el instv i c,
    (at_, el) ∈ iter (net_root s) "block" ∧ attrib el !! "instance" = Some instv ∧
    contains inst instv = true ∧ getchildren el ≠ [] ∧
    last at_ = Some i ∧ getchildren (net_root s) !! i = Some c ∧
    attrib c !! "name" = Some nm.
Proof. apply used_loop_names. Qed.

Lemma used_instances_are_clusters_witness :
  get_used_instances net_loaded "IDELAYCTRL" = Done ["idelay"] ∧
  ∃ at_ el instv i c,
    (at_, el) ∈ iter (net_root net_loaded) "block" ∧ attrib el !! "instance" = Some instv ∧
    contains "IDELAYCTRL" instv = true ∧ getchildren el ≠ [] ∧
    last at_ = Some i ∧ getchildren (net_root net_loaded) !! i = Some c ∧
    attrib c !! "name" = Some "idelay".
Proof.
  split; [reflexivity|].
  exact (used_instances_are_clusters net_loaded "IDELAYCTRL" ["idelay"] "idelay" eq_refl
           (list_elem_of_here _ _)).
Defined.

End PlaceFacts.

(** ** Facts about the build identifiers *)

Module TdmFacts.
Import Tdm.

Lemma length_append_sum h rest :
  String.length (h +:+ rest) = (String.length h + String.length rest)%nat.
Proof. induction h as [|a h IH]; simpl; [done|]. by rewrite IH. Qed.

Lemma take_app h rest :
  take (String.length (h +:+ rest) - String.length rest) (h +:+ rest) = h.
Proof.
  rewrite length_append_sum.
  replace (String.length h + String.length rest - String.length rest)%nat
    with (String.length h) by lia.
  induction h as [|a h IH]; simpl.
  - by destruct rest.
  - by rewrite IH.
Qed.

(** A star whose rest always matches takes the whole run. *)
Lemma star_run {R} p run rest (k : string → option R) r :
  all_chars p run = true →
  (rest = "" ∨ ∃ a rest', rest = String a rest' ∧ p a = false) →
  k rest = Some r →
  star p (run +:+ rest) k = Some r.
Proof.
  intros Hrun Hrest Hk. induction run as [|a run IH]; simpl in *.
  - destruct Hrest as [->|(a & rest' & -> & Hp)]; simpl; [done|]. by rewrite Hp.
  - apply andb_true_iff in Hrun as [-> Hrun]. by rewrite IH.
Qed.

(** A star followed by a dash goes back past every character that is not a
    dash; with no dash in the run, it fails. *)
Lemma star_no_dash {R} run rest (k : string → option R) :
  all_chars not_dot_dash run = true →
  ends_or_dot rest = true →
  star not_dot (run +:+ rest) (λ s1, lit "-" s1 k) = None.
Proof.
  intros Hrun Hrest. induction run as [|a run IH]; simpl in *.
  - destruct rest as [|a rest]; simpl; [done|].
    simpl in Hrest. apply Ascii.eqb_eq in Hrest as ->. done.
  - apply andb_true_iff in Hrun as [Ha Hrun]. rewrite IH by done.
    unfold not_dot_dash in Ha. apply andb_true_iff in Ha as [Hd Hm].
    unfold not_dot. rewrite Hd. by rewrite (negb_true_iff _) in Hm; rewrite Hm.
Qed.

Lemma star_always {R} p s (r : R) : star p s (λ _, Some r) = Some r.
Proof.
  induction s as [|a s IH]; simpl; [done|]. destruct (p a); [|done]. by rewrite IH.
Qed.

Lemma not_dot_of_dash a : not_dot_dash a = true → not_dot a = true.
Proof. unfold not_dot_dash, not_dot. by intros [? _]%andb_true_iff. Qed.

Lemma all_not_dot h : all_chars not_dot_dash h = true → all_chars not_dot h = true.
Proof.
  induction h as [|a h IH]; simpl; [done|].
  intros [Ha Hh]%andb_true_iff. by rewrite (not_dot_of_dash a), IH.
Qed.

(** For a name of the shape [a-h] or [a-h.ext], where [a] has no dot and
    [h] neither a dot nor a dash, [extract_bhash] gives [h]: the text
    between the last dash before the first dot and that dot. *)
Theorem extract_bhash_found a h rest :
  all_chars not_dot a = true →
  all_chars not_dot_dash h = true →
  ends_or_dot rest = true →
  extract_bhash (a +:+ "-" +:+ h +:+ rest) = Some h.
Proof.
  intros Ha Hh Hrest. unfold extract_bhash.
  assert (∀ R (k : string → option R), 
            star not_dot (h +:+ rest) (λ s1, lit "-" s1 k) = None) as Hback.
  { intros. by apply star_no_dash. }
  assert (rest = "" ∨ ∃ c rest', rest = String c rest' ∧ not_dot_dash c = false) as Hstop.
  { destruct rest as [|c rest']; [by left|]. right. exists c, rest'. split; [done|].
    simpl in Hrest. apply Ascii.eqb_eq in Hrest as ->. done. }
  induction a as [|c a IH]; simpl in *.
  - rewrite Hback. simpl. unfold capture.
    apply (star_run not_dot_dash h rest); [done|done|].
    cbv beta. change ("" +:+ h +:+ rest) with (h +:+ rest).
    rewrite take_app. unfold opt.
    destruct (lit "." rest _) eqn:E.
    + unfold lit in E. destruct rest as [|c rest']; [done|].
      destruct (Ascii.eqb c "."); [|done]. by rewrite star_always in E.
    + done.
  - apply andb_true_iff in Ha as [-> Ha]. by rewrite IH.
Qed.

Lemma extract_bhash_found_witness :
  all_chars not_dot "symbiflow-arch-defs-install" = true ∧
  all_chars not_dot_dash "709cac78" = true ∧
  ends_or_dot ".tar.xz" = true ∧
  extract_bhash "symbiflow-arch-defs-install-709cac78.tar.xz" = Some "709cac78".
Proof.
  split; [reflexivity|]. split; [reflexivity|]. split; [reflexivity|].
  exact (extract_bhash_found "symbiflow-arch-defs-install" "709cac78" ".tar.xz"
           eq_refl eq_refl eq_refl).
Defined.

(** A name with no dash before its first dot has no build identifier. *)
Theorem extract_bhash_none a rest :
  all_chars not_dot_dash a = true →
  ends_or_dot rest = true →
  extract_bhash (a +:+ rest) = None.
Proof. intros Ha Hrest. unfold extract_bhash. by apply star_no_dash. Qed.

Lemma extract_bhash_none_witness :
  all_chars not_dot_dash "install" = true ∧
  ends_or_dot ".tar-1.xz" = true ∧
  extract_bhash "install.tar-1.xz" = None.
Proof.
  split; [reflexivity|]. split; [reflexivity|].
  exact (extract_bhash_none "install" ".tar-1.xz" eq_refl eq_refl).
Defined.

End TdmFacts.

(** ** Facts about the choice of the constraint writer *)

Module UtilsFacts.
Import UtilsInit.

(** The module body runs to its end for the family [xc7] only: for any
    other family, [eos-s3] included, the [elif] raises [NameError] on
    [F4PGA_FAM], a name that is not bound. *)
Theorem import_utils_only_xc7 fam :
  ((∃ w, import_utils fam = Returned w) ↔ fam = "xc7") ∧
  (fam ≠ "xc7" → import_utils fam = Raised (NameError "F4PGA_FAM")) ∧
  import_utils "xc7" = Returned (Some xc7_create_place_constraints) ∧
  import_utils "eos-s3" = Raised (NameError "F4PGA_FAM").
Proof.
  unfold import_utils. destruct (String.eqb fam "xc7") eqn:E.
  - apply String.eqb_eq in E as ->. split_and!; try done. split; [done|by eexists].
  - apply String.eqb_neq in E. split_and!; try done.
    split; [by intros [w ?]|done].
Qed.

End UtilsFacts.

(** ** The checksum *)

Module AdlerFacts.
Import Cache CacheStates.
Local Open Scope list_scope.

Lemma adler_s1_snoc data x :
  adler_s1 (data ++ [x]) = adler_s1 data + Z.of_N (Byte.to_N x).
Proof.
  unfold adler_s1. induction data as [|y data IH]; simpl; [lia|]. lia.
Qed.

Lemma adler_s2_snoc data x :
  adler_s2 (data ++ [x]) = adler_s2 data + adler_s1 (data ++ [x]).
Proof.
  unfold adler_s2. rewrite length_app. simpl length.
  replace (length data + 1)%nat with (S (length data)) by lia.
  rewrite seq_S, fmap_app, foldr_app. simpl.
  assert (take (S (length data)) (data ++ [x]) = data ++ [x]) as ->.
  { apply take_ge. rewrite length_app. simpl. lia. }
  assert (∀ l acc, foldr Z.add acc l = foldr Z.add 0 l + acc) as Hacc.
  { induction l as [|z l IH]; intros acc; simpl; [lia|]. rewrite IH. lia. }
  rewrite Hacc, Z.add_0_r. f_equal. f_equal.
  apply list_fmap_ext. intros i k Hk.
  apply lookup_seq in Hk as [-> Hi].
  by rewrite take_app_le by lia.
Qed.

Lemma adler_state data :
  fold_left adler32_step data (1, 0) = (adler_s1 data mod 65521, adler_s2 data mod 65521).
Proof.
  induction data as [|x data IH] using rev_ind; [done|].
  rewrite fold_left_app, IH. simpl. unfold adler32_step. simpl.
  rewrite adler_s2_snoc, adler_s1_snoc. f_equal.
  - apply Zplus_mod_idemp_l.
  - rewrite <- Zplus_mod. rewrite Z.add_assoc, (Z.add_comm (adler_s2 data)), <- Z.add_assoc.
    rewrite Zplus_mod_idemp_l. f_equal. lia.
Qed.

Lemma lor_shiftl_16 a b :
  0 ≤ a < 65536 → Z.lor (Z.shiftl b 16) a = b * 65536 + a.
Proof.
  intros Ha.
  assert (Z.land (Z.shiftl b 16) a = 0) as Hland.
  { apply Z.bits_inj'. intros n Hn. rewrite Z.land_spec, Z.bits_0.
    destruct (decide (n < 16)) as [Hlt|Hge].
    - by rewrite Z.shiftl_spec_low.
    - rewrite (Z.bits_above_log2 a n); [apply andb_false_r|lia|].
      destruct (decide (a = 0)) as [->|Hne]; [simpl; lia|].
      assert (Z.log2 a < 16); [|lia]. apply Z.log2_lt_pow2; lia. }
  rewrite <- Z.lxor_lor, <- Z.add_nocarry_lxor by done.
  rewrite Z.shiftl_mul_pow2 by lia. reflexivity.
Qed.

(** The checksum of the model is the Adler-32 of RFC 1950, a number below
    [2^32]. *)
Lemma zlib_adler32_rfc data :
  zlib_adler32 data = adler32_rfc data ∧ 0 ≤ zlib_adler32 data < 2 ^ 32.
Proof.
  unfold zlib_adler32, adler32_rfc. rewrite adler_state. simpl.
  pose proof (Z.mod_pos_bound (adler_s1 data) 65521 eq_refl).
  pose proof (Z.mod_pos_bound (adler_s2 data) 65521 eq_refl).
  rewrite lor_shiftl_16 by lia. split; [done|]. lia.
Qed.

(** The values [zlib.adler32] gives: of no bytes, of [abc], of [Wikipedia],
    and of 300 bytes [0xff], where both sums wrap around. *)
Lemma zlib_adler32_values :
  zlib_adler32 [] = 1 ∧
  zlib_adler32 [x61; x62; x63]%byte = 38600999 ∧
  zlib_adler32 [x57; x69; x6b; x69; x70; x65; x64; x69; x61]%byte = 300286872 ∧
  zlib_adler32 (replicate 300 xff) = 3104778980.
Proof. vm_compute. by split_and!. Qed.

End AdlerFacts.
